(** * Voice recorder: the recording worker and the record service

    A shallow embedding of the capture -> buffer -> encode pipeline of the
    Angular voice recorder:

    - [record-worker.ts]: the web worker that accumulates the captured
      frames ([record], [clear]) and encodes them as a RIFF/WAVE file
      ([encodeWav], [buffersTo16BitPCM], [writeString]);
    - [record.service.ts]: the service that posts commands to the worker and
      pairs the worker's answers with the pending callbacks
      ([stopRecording], the service's [onmessage] handler).

    JavaScript numbers are modelled by [Number] (dyadic values with NaN and
    the infinities), a [DataView] by the list of its bytes, exceptions by
    the [completion] monad, and the variables of the worker's closure by
    the record [WorkerScope]. *)

From Stdlib Require Import ZArith QArith Lia String Ascii.
From stdpp Require Import base numbers list strings gmap.

Local Open Scope Z_scope.

(** ** Completions: a call returns normally or throws *)

Inductive Error : Set := RangeError | TypeError.

Inductive completion (A : Type) : Type :=
  | Normal (a : A)
  | Throw (e : Error).
Arguments Normal {A} a.
Arguments Throw {A} e.

#[global] Instance completion_ret : MRet completion := fun A a => Normal a.
#[global] Instance completion_bind : MBind completion := fun A B f c =>
  match c with
  | Normal a => f a
  | Throw e => Throw e
  end.

(** ** JavaScript numbers

    A finite number is the dyadic [m * 2^e].  Every finite IEEE value has
    this form; an element of a [Float32Array] has [|m| < 2^24], so that the
    products with the 15-bit constant [0x7FFF] computed by the encoder are
    exact in double precision, as they are here.  The two zeros are not
    told apart: the integer conversions below send both to [0]. *)

Inductive Number : Set :=
  | NaN
  | Infinity (negative : bool)
  | Finite (m e : Z).

(** A variable of the worker holds a number or is still [undefined]. *)
Inductive JSValue : Set :=
  | Undefined
  | Num (n : Number).

Definition ToNumber (v : JSValue) : Number :=
  match v with
  | Undefined => NaN
  | Num n => n
  end.

Definition of_Z (z : Z) : Number := Finite z 0.

(** Order of two dyadics, on a common exponent. *)
Definition dyadic_compare (m1 e1 m2 e2 : Z) : comparison :=
  let e := Z.min e1 e2 in
  (m1 * 2 ^ (e1 - e)) ?= (m2 * 2 ^ (e2 - e)).

(** [Number_lt a b] is the comparison [a < b] of two numbers; it is [false]
    as soon as one of them is [NaN]. *)
Definition Number_lt (a b : Number) : bool :=
  match a, b with
  | NaN, _ | _, NaN => false
  | Infinity true, Infinity true => false
  | Infinity true, _ => true
  | _, Infinity true => false
  | Infinity false, _ => false
  | _, Infinity false => true
  | Finite m1 e1, Finite m2 e2 =>
      match dyadic_compare m1 e1 m2 e2 with Lt => true | _ => false end
  end.

Definition Math_min (a b : Number) : Number :=
  match a, b with
  | NaN, _ | _, NaN => NaN
  | _, _ => if Number_lt b a then b else a
  end.

Definition Math_max (a b : Number) : Number :=
  match a, b with
  | NaN, _ | _, NaN => NaN
  | _, _ => if Number_lt a b then b else a
  end.

(** The exact product.  The numbers of the language are in double
    precision, and their product is the exact one rounded to double
    precision: it is the exact one whenever that is itself a number in
    double precision ([binary64] below). *)
Definition Number_mul (a b : Number) : Number :=
  match a, b with
  | NaN, _ | _, NaN => NaN
  | Infinity s, Infinity t => Infinity (xorb s t)
  | Infinity s, Finite m _ | Finite m _, Infinity s =>
      if m =? 0 then NaN else Infinity (xorb s (m <? 0))
  | Finite m1 e1, Finite m2 e2 => Finite (m1 * m2) (e1 + e2)
  end.

(** The integer part of [m * 2^e], rounded toward zero. *)
Definition truncate (m e : Z) : Z :=
  if 0 <=? e then m * 2 ^ e else Z.quot m (2 ^ (- e)).

(** [ToUint8], [ToUint16], [ToUint32]: truncate, then reduce modulo [2^w];
    what is not finite becomes [0]. *)
Definition ToUint (w : Z) (x : Number) : Z :=
  match x with
  | NaN | Infinity _ => 0
  | Finite m e => truncate m e mod 2 ^ w
  end.

(** [ToInt16]: as [ToUint 16], read back in two's complement. *)
Definition ToInt16 (x : Number) : Z :=
  let int16bit := ToUint 16 x in
  if 2 ^ 15 <=? int16bit then int16bit - 2 ^ 16 else int16bit.

(** ** DataView over a fresh ArrayBuffer: the list of its bytes *)

Definition DataView : Type := list Z.

Definition byteLength (view : DataView) : Z := Z.of_nat (length view).

(** [new ArrayBuffer(n)]: [n] zero bytes, for a length [n] that is
    allocated.  The constructor also throws a [RangeError] for a length above
    [max_byte_length], which no recording reaches. *)
Definition new_ArrayBuffer (n : Z) : completion DataView :=
  if n <? 0 then Throw RangeError else Normal (replicate (Z.to_nat n) 0).

(** The largest length that [new ArrayBuffer] takes: [2^53 - 1]. *)
Definition max_byte_length : Z := 2 ^ 53 - 1.

(** The [n] bytes of [u], least significant first. *)
Fixpoint RawBytes (n : nat) (u : Z) : list Z :=
  match n with
  | O => []
  | S k => u mod 256 :: RawBytes k (u / 256)
  end.

Definition NumericToRawBytes (n : nat) (u : Z) (littleEndian : bool) : list Z :=
  if littleEndian then RawBytes n u else reverse (RawBytes n u).

(** [SetViewValue]: the range is checked first, then the bytes are stored
    at [byteOffset]. *)
Definition SetViewValue (view : DataView) (byteOffset : Z) (raw : list Z)
  : completion DataView :=
  if (byteOffset <? 0) || (byteLength view <? byteOffset + Z.of_nat (length raw))
  then Throw RangeError
  else Normal (take (Z.to_nat byteOffset) view ++ raw
               ++ drop (Z.to_nat byteOffset + length raw) view).

Definition setUint8 (view : DataView) (byteOffset : Z) (value : Number)
  : completion DataView :=
  SetViewValue view byteOffset (NumericToRawBytes 1 (ToUint 8 value) true).

Definition setUint16 (view : DataView) (byteOffset : Z) (value : Number)
    (littleEndian : bool) : completion DataView :=
  SetViewValue view byteOffset (NumericToRawBytes 2 (ToUint 16 value) littleEndian).

Definition setUint32 (view : DataView) (byteOffset : Z) (value : Number)
    (littleEndian : bool) : completion DataView :=
  SetViewValue view byteOffset (NumericToRawBytes 4 (ToUint 32 value) littleEndian).

Definition setInt16 (view : DataView) (byteOffset : Z) (value : Number)
    (littleEndian : bool) : completion DataView :=
  SetViewValue view byteOffset
    (NumericToRawBytes 2 (ToInt16 value mod 2 ^ 16) littleEndian).

(** Reading a little-endian field back. *)
Definition le_decode (raw : list Z) : Z :=
  foldr (fun b acc => b + 256 * acc) 0 raw.

Definition getUint32_le (view : DataView) (byteOffset : nat) : Z :=
  le_decode (take 4 (drop byteOffset view)).

(** ** The encoder of the worker *)

(** A captured frame: the channel data posted with a [record] command. *)
Definition Frame : Type := list Number.

Definition charCode (c : ascii) : Number := of_Z (Z.of_nat (nat_of_ascii c)).

(** [writeString]: the loop [for (i = 0; i < string.length; i++)], on the
    characters still to write. *)
Fixpoint writeString_loop (view : DataView) (offset : Z) (rest : string) (i : Z)
  : completion DataView :=
  match rest with
  | EmptyString => Normal view
  | String c rest' =>
      view' ← setUint8 view (offset + i) (charCode c);
      writeString_loop view' offset rest' (i + 1)
  end.

Definition writeString (view : DataView) (offset : Z) (s : string)
  : completion DataView :=
  writeString_loop view offset s 0.

(** The inner loop of [buffersTo16BitPCM], over the samples of one frame;
    it hands back the view and the running offset. *)
Fixpoint buffersTo16BitPCM_frame (output : DataView) (offset : Z) (frame : Frame)
  : completion (DataView * Z) :=
  match frame with
  | [] => Normal (output, offset)
  | x :: frame' =>
      let sample := Math_max (of_Z (-1)) (Math_min (of_Z 1) x) in
      output' ← setInt16 output offset (Number_mul sample (of_Z 0x7FFF)) true;
      buffersTo16BitPCM_frame output' (offset + 2) frame'
  end.

Fixpoint buffersTo16BitPCM (output : DataView) (offset : Z) (input : list Frame)
  : completion DataView :=
  match input with
  | [] => Normal output
  | frame :: input' =>
      '(output', offset') ← buffersTo16BitPCM_frame output offset frame;
      buffersTo16BitPCM output' offset' input'
  end.

Section Encoder.

(** The variables [sampleRate] and [numChannels] of the worker's scope,
    which [encodeWav] reads. *)
Variables sampleRate numChannels : JSValue.

Definition encodeWav (recBuffers : list Frame) (recLength : Z)
  : completion DataView :=
  buffer ← new_ArrayBuffer (44 + recLength * 2);
  let view : DataView := buffer in
  (* RIFF identifier *)
  view ← writeString view 0 "RIFF";
  (* RIFF chunk length *)
  view ← setUint32 view 4 (of_Z (36 + recLength * 2)) true;
  (* RIFF type *)
  view ← writeString view 8 "WAVE";
  (* format chunk identifier *)
  view ← writeString view 12 "fmt ";
  (* format chunk length *)
  view ← setUint32 view 16 (of_Z 16) true;
  (* sample format (raw) *)
  view ← setUint16 view 20 (of_Z 1) true;
  (* channel count *)
  view ← setUint16 view 22 (ToNumber numChannels) true;
  (* sample rate *)
  view ← setUint32 view 24 (ToNumber sampleRate) true;
  (* byte rate (sample rate * block align) *)
  view ← setUint32 view 28 (Number_mul (ToNumber sampleRate) (of_Z 4)) true;
  (* block align (channel count * bytes per sample) *)
  view ← setUint16 view 32 (Number_mul (ToNumber numChannels) (of_Z 2)) true;
  (* bits per sample *)
  view ← setUint16 view 34 (of_Z 16) true;
  (* data chunk identifier *)
  view ← writeString view 36 "data";
  (* data chunk length *)
  view ← setUint32 view 40 (of_Z (recLength * 2)) true;
  buffersTo16BitPCM view 44 recBuffers.

End Encoder.

(** ** Messages between the service and the worker *)

Record Config : Type := { cfg_sampleRate : JSValue; cfg_numChannels : JSValue }.

(** [event.data] of a message posted to the worker: the command tag, and
    the fields [config], [buffer] and [type], of which a command reads only
    its own (the other ones are immaterial). *)
Record Message : Type := {
  command : string;
  config : Config;
  buffer : Frame;
  type : string
}.

Record Blob : Type := { blob_parts : DataView; blob_type : string }.

(** The [type] of [new Blob(parts, {type: t})]: the empty string when [t]
    holds a character outside U+0020 .. U+007E, and otherwise [t] with its
    letters [A] .. [Z] in lower case. *)
Definition printable (c : ascii) : bool :=
  ((32 <=? nat_of_ascii c) && (nat_of_ascii c <=? 126))%nat.

Definition ascii_lowercase (c : ascii) : ascii :=
  if ((65 <=? nat_of_ascii c) && (nat_of_ascii c <=? 90))%nat
  then ascii_of_nat (nat_of_ascii c + 32)
  else c.

Definition Blob_type (t : string) : string :=
  if forallb printable (list_ascii_of_string t)
  then string_of_list_ascii (map ascii_lowercase (list_ascii_of_string t))
  else "".

Definition new_Blob (parts : DataView) (t : string) : Blob :=
  {| blob_parts := parts; blob_type := Blob_type t |}.

(** [event.data] of a message posted by the worker. *)
Record Reply : Type := { reply_command : string; reply_data : Blob }.

Definition cmdInit : string := "init".
Definition cmdRecord : string := "record".
Definition cmdExportWav : string := "exportWav".
Definition cmdClear : string := "clear".

Definition no_config : Config :=
  {| cfg_sampleRate := Undefined; cfg_numChannels := Undefined |}.

Definition InitMsg (cfg : Config) : Message :=
  {| command := cmdInit; config := cfg; buffer := []; type := "" |}.
Definition RecordMsg (frame : Frame) : Message :=
  {| command := cmdRecord; config := no_config; buffer := frame; type := "" |}.
Definition ExportWavMsg (mime : string) : Message :=
  {| command := cmdExportWav; config := no_config; buffer := []; type := mime |}.
Definition ClearMsg : Message :=
  {| command := cmdClear; config := no_config; buffer := []; type := "" |}.

(** ** The worker *)

Module Worker.

(** The variables of the worker's closure, and [posted], the messages the
    worker has sent back with [postMessage], oldest first. *)
Record WorkerScope : Type := {
  recLength : Z;
  recBuffers : list Frame;
  sampleRate : JSValue;
  numChannels : JSValue;
  posted : list Reply
}.

Definition initial : WorkerScope :=
  {| recLength := 0; recBuffers := []; sampleRate := Undefined;
     numChannels := Undefined; posted := [] |}.

Definition postMessage (r : Reply) (w : WorkerScope) : WorkerScope :=
  {| recLength := recLength w; recBuffers := recBuffers w;
     sampleRate := sampleRate w; numChannels := numChannels w;
     posted := posted w ++ [r] |}.

Definition init (cfg : Config) (w : WorkerScope) : WorkerScope :=
  {| recLength := recLength w; recBuffers := recBuffers w;
     sampleRate := cfg_sampleRate cfg; numChannels := cfg_numChannels cfg;
     posted := posted w |}.

Definition record (inputBuffer : Frame) (w : WorkerScope) : WorkerScope :=
  {| recLength := recLength w + Z.of_nat (length inputBuffer);
     recBuffers := recBuffers w ++ [inputBuffer];
     sampleRate := sampleRate w; numChannels := numChannels w;
     posted := posted w |}.

(** [exportWav]; [this] is the worker's global scope, so that
    [this.postMessage] posts to the service.  When [encodeWav] throws,
    nothing is posted. *)
Definition exportWav (mime : string) (w : WorkerScope)
  : completion unit * WorkerScope :=
  match encodeWav (sampleRate w) (numChannels w) (recBuffers w) (recLength w) with
  | Normal dataView =>
      let audioBlob := new_Blob dataView mime in
      (Normal (),
       postMessage {| reply_command := "exportWav"; reply_data := audioBlob |} w)
  | Throw e => (Throw e, w)
  end.

Definition clear (w : WorkerScope) : WorkerScope :=
  {| recLength := 0; recBuffers := [];
     sampleRate := sampleRate w; numChannels := numChannels w;
     posted := posted w |}.

(** The [switch] on [event.data.command]; it has no [default] branch. *)
Definition onmessage (event : Message) (w : WorkerScope)
  : completion unit * WorkerScope :=
  if String.eqb (command event) "init" then (Normal (), init (config event) w)
  else if String.eqb (command event) "record" then (Normal (), record (buffer event) w)
  else if String.eqb (command event) "exportWav" then exportWav (type event) w
  else if String.eqb (command event) "clear" then (Normal (), clear w)
  else (Normal (), w).

(** The worker handles its messages one at a time, in the order they were
    posted; a handler that throws ends, and the next message is handled
    in the scope it left. *)
Definition run (events : list Message) (w : WorkerScope) : WorkerScope :=
  foldl (fun w event => snd (onmessage event w)) w events.

(** The accumulator invariant. *)
Definition total_samples (frames : list Frame) : Z :=
  foldr (fun frame n => Z.of_nat (length frame) + n) 0 frames.

Definition accumulator_ok (w : WorkerScope) : Prop :=
  recLength w = total_samples (recBuffers w) ∧ 0 <= recLength w.

End Worker.

(** ** The record service *)

Module Service.

Inductive ContextState : Set := running | suspended | closed.

(** An audio node of the processing graph, connected or not. *)
Inductive AudioNode : Set := Connected | Disconnected.

(** What the service does to its surroundings: [to_worker], the messages
    posted to the worker, oldest first; the promises handed out by
    [stopRecording], named by their rank, with those resolved and those
    whose executor threw; [invoked], the calls of the export callbacks
    with the blob each one was given; [closing], the promises that wait
    for [audioContext.close()] to finish; [started], the calls of
    [callBackWhenStart]. *)
Record Effects : Type := {
  to_worker : list Message;
  promises : nat;
  resolved : list nat;
  rejected : list nat;
  invoked : list (nat * Blob);
  closing : list nat;
  started : nat
}.

(** The fields of the service.  An absent object is [None].  A callback
    pushed by [stopRecording] is named by the promise it resolves. *)
Record RecordService : Type := {
  audioContext : option ContextState;
  resourceNode : option AudioNode;
  jsNode : option AudioNode;
  sampleRate : JSValue;
  audioBlob : option Blob;
  callbacks : gmap string (list nat);
  effects : Effects
}.

Definition bufferLen : Z := 4096.
Definition numChannels : Z := 1.
Definition mimeType : string := "audio/wav".

Definition no_effects : Effects :=
  {| to_worker := []; promises := 0; resolved := []; rejected := [];
     invoked := []; closing := []; started := 0 |}.

(** The service as its constructor leaves it. *)
Definition create : RecordService :=
  {| audioContext := None; resourceNode := None; jsNode := None;
     sampleRate := Undefined; audioBlob := None;
     callbacks := {[ "exportWav" := [] ]}; effects := no_effects |}.

Definition with_effects (f : Effects -> Effects) (s : RecordService) : RecordService :=
  {| audioContext := audioContext s; resourceNode := resourceNode s;
     jsNode := jsNode s; sampleRate := sampleRate s; audioBlob := audioBlob s;
     callbacks := callbacks s; effects := f (effects s) |}.

(** [this.worker.postMessage] *)
Definition postMessage (m : Message) : RecordService -> RecordService :=
  with_effects (fun e =>
    {| to_worker := to_worker e ++ [m]; promises := promises e;
       resolved := resolved e; rejected := rejected e; invoked := invoked e;
       closing := closing e; started := started e |}).

Definition new_promise : RecordService -> RecordService :=
  with_effects (fun e =>
    {| to_worker := to_worker e; promises := S (promises e);
       resolved := resolved e; rejected := rejected e; invoked := invoked e;
       closing := closing e; started := started e |}).

Definition resolve (promise : nat) : RecordService -> RecordService :=
  with_effects (fun e =>
    {| to_worker := to_worker e; promises := promises e;
       resolved := resolved e ++ [promise]; rejected := rejected e;
       invoked := invoked e; closing := closing e; started := started e |}).

Definition reject (promise : nat) : RecordService -> RecordService :=
  with_effects (fun e =>
    {| to_worker := to_worker e; promises := promises e;
       resolved := resolved e; rejected := rejected e ++ [promise];
       invoked := invoked e; closing := closing e; started := started e |}).

Definition log_invoked (promise : nat) (blob : Blob) : RecordService -> RecordService :=
  with_effects (fun e =>
    {| to_worker := to_worker e; promises := promises e;
       resolved := resolved e; rejected := rejected e;
       invoked := invoked e ++ [(promise, blob)]; closing := closing e;
       started := started e |}).

Definition set_closing (l : list nat) : RecordService -> RecordService :=
  with_effects (fun e =>
    {| to_worker := to_worker e; promises := promises e;
       resolved := resolved e; rejected := rejected e; invoked := invoked e;
       closing := l; started := started e |}).

Definition log_started : RecordService -> RecordService :=
  with_effects (fun e =>
    {| to_worker := to_worker e; promises := promises e;
       resolved := resolved e; rejected := rejected e; invoked := invoked e;
       closing := closing e; started := S (started e) |}).

Definition set_audioBlob (b : option Blob) (s : RecordService) : RecordService :=
  {| audioContext := audioContext s; resourceNode := resourceNode s;
     jsNode := jsNode s; sampleRate := sampleRate s; audioBlob := b;
     callbacks := callbacks s; effects := effects s |}.

Definition set_callbacks (c : gmap string (list nat)) (s : RecordService)
  : RecordService :=
  {| audioContext := audioContext s; resourceNode := resourceNode s;
     jsNode := jsNode s; sampleRate := sampleRate s; audioBlob := audioBlob s;
     callbacks := c; effects := effects s |}.

Definition set_nodes (source processor : option AudioNode) (s : RecordService)
  : RecordService :=
  {| audioContext := audioContext s; resourceNode := source;
     jsNode := processor; sampleRate := sampleRate s; audioBlob := audioBlob s;
     callbacks := callbacks s; effects := effects s |}.

Definition set_audioContext (c : option ContextState) (rate : JSValue)
    (s : RecordService) : RecordService :=
  {| audioContext := c; resourceNode := resourceNode s;
     jsNode := jsNode s; sampleRate := rate; audioBlob := audioBlob s;
     callbacks := callbacks s; effects := effects s |}.

Definition getAudioBlob (s : RecordService) : option Blob := audioBlob s.

Definition clearAudioBlob : RecordService -> RecordService := set_audioBlob None.

(** [initAudioContext], when the browser provides an audio context; its
    sample rate [rate] is the device's. *)
Definition initAudioContext (rate : Number) (s : RecordService) : RecordService :=
  set_audioContext (Some running) (Num rate) s.

Definition clearWorker : RecordService -> RecordService := postMessage ClearMsg.

(** The handler set on [jsNode.onaudioprocess]. *)
Definition onaudioprocess (channelData : Frame) : RecordService -> RecordService :=
  postMessage (RecordMsg channelData).

(** The success callback that [initMediaStream] hands to [getUserMedia]. *)
Definition onStream (s : RecordService) : RecordService :=
  let s := set_nodes (Some Disconnected) (Some Disconnected) s in
  let s := postMessage (InitMsg {| cfg_sampleRate := sampleRate s;
                                   cfg_numChannels := Num (of_Z numChannels) |}) s in
  let s := set_nodes (Some Connected) (Some Connected) s in
  log_started s.

(** [startRecording] up to the request for the microphone; [onStream]
    runs once the request is granted. *)
Definition startRecording (rate : Number) (s : RecordService) : RecordService :=
  clearWorker (initAudioContext rate (clearAudioBlob s)).

(** [Array.prototype.pop]: the last element and the array without it. *)
Definition pop {A : Type} (l : list A) : option (list A * A) :=
  match last l with
  | None => None
  | Some x => Some (removelast l, x)
  end.

(** The callback that [stopRecording] pushes, for the promise [promise]. *)
Definition export_callback (promise : nat) (blob : Blob) (s : RecordService)
  : completion unit * RecordService :=
  let s := log_invoked promise blob s in
  (* Persist the blob here. *)
  let s := set_audioBlob (Some blob) s in
  (* Release all media resources *)
  let s := match jsNode s with
           | Some _ => set_nodes (resourceNode s) (Some Disconnected) s
           | None => s
           end in
  let s := match resourceNode s with
           | Some _ => set_nodes (Some Disconnected) (jsNode s) s
           | None => s
           end in
  match audioContext s with
  | None => (Throw TypeError, s)
  | Some running => (Normal (), set_closing (closing (effects s) ++ [promise]) s)
  | Some _ => (Normal (), resolve promise s)
  end.

(** The continuation of [audioContext.close()], for the oldest promise
    that waits for it. *)
Definition context_closed (s : RecordService) : RecordService :=
  match closing (effects s) with
  | [] => s
  | promise :: rest =>
      let s := set_closing rest s in
      let s := set_audioContext (Some closed) (sampleRate s) s in
      let s := set_nodes None None s in
      resolve promise s
  end.

Definition stopRecording (s : RecordService) : nat * RecordService :=
  let promise := promises (effects s) in
  let s := new_promise s in
  match callbacks s !! "exportWav" with
  | None => (promise, reject promise s)
  | Some stack =>
      (* Export content and save *)
      let s := set_callbacks (<["exportWav" := stack ++ [promise]]> (callbacks s)) s in
      (* Post message to export wav file *)
      (promise, postMessage (ExportWavMsg mimeType) s)
  end.

(** The handler set on [this.worker.onmessage]. *)
Definition onmessage (event : Reply) (s : RecordService)
  : completion unit * RecordService :=
  match callbacks s !! reply_command event with
  | None => (Throw TypeError, s)
  | Some stack =>
      match pop stack with
      | None => (Normal (), s)
      | Some (stack', callback) =>
          export_callback callback (reply_data event)
            (set_callbacks (<[reply_command event := stack']> (callbacks s)) s)
      end
  end.

(** The replies of the worker reach the service in the order they were
    posted. *)
Definition receive (events : list Reply) (s : RecordService) : RecordService :=
  foldl (fun s event => snd (onmessage event s)) s events.

(** What can happen to the service, and the states it can be in. *)
Inductive action : Type :=
  | Start (rate : Number)
  | Stream
  | Audio (channelData : Frame)
  | Stop
  | Receive (event : Reply)
  | Closed.

Definition step (s : RecordService) (a : action) : RecordService :=
  match a with
  | Start rate => startRecording rate s
  | Stream => onStream s
  | Audio channelData => onaudioprocess channelData s
  | Stop => snd (stopRecording s)
  | Receive event => snd (onmessage event s)
  | Closed => context_closed s
  end.

Definition after (actions : list action) : RecordService :=
  foldl step create actions.

(** The pending export callbacks. *)
Definition pending (s : RecordService) : list nat :=
  default [] (callbacks s !! "exportWav").

(** The promises named by the pending callbacks and by the callbacks
    already run are distinct, and were all handed out. *)
Definition callbacks_ok (s : RecordService) : Prop :=
  ∃ stack : list nat,
    callbacks s = {[ "exportWav" := stack ]}
    ∧ NoDup (stack ++ map fst (invoked (effects s)))
    ∧ Forall (fun p => (p < promises (effects s))%nat)
             (stack ++ map fst (invoked (effects s))).

End Service.

(** ** What the encoder writes, as a list of bytes *)

(** The 16-bit value the encoder stores for the sample [x]. *)
Definition pcm16 (x : Number) : Z :=
  ToInt16 (Number_mul (Math_max (of_Z (-1)) (Math_min (of_Z 1) x)) (of_Z 0x7FFF)).

(** The product [sample * 0x7FFF] that [setInt16] receives. *)
Definition scaled (x : Number) : Number :=
  Number_mul (Math_max (of_Z (-1)) (Math_min (of_Z 1) x)) (of_Z 0x7FFF).

(** The finite elements of a [Float32Array], which is what a frame is made
    of: [m * 2^e] with a significand of at most 24 bits and an exponent of
    single precision. *)
Definition float32 (m e : Z) : Prop := Z.abs m < 2 ^ 24 ∧ -149 <= e <= 104.

(** The finite numbers in double precision: a significand of at most 53
    bits. *)
Definition binary64 (m e : Z) : Prop := Z.abs m < 2 ^ 53 ∧ -1074 <= e <= 971.

Definition int16_le (z : Z) : list Z := RawBytes 2 (z mod 2 ^ 16).

Definition frame_bytes (frame : Frame) : list Z :=
  concat (map (fun x => int16_le (pcm16 x)) frame).

Definition pcm_bytes (frames : list Frame) : list Z :=
  concat (map frame_bytes frames).

Definition ascii_bytes (s : string) : list Z :=
  map (fun c => Z.of_nat (nat_of_ascii c)) (list_ascii_of_string s).

(** The 44 bytes of the header, field by field. *)
Definition wav_header (sampleRate numChannels : JSValue) (recLength : Z) : list Z :=
  ascii_bytes "RIFF"
  ++ RawBytes 4 (ToUint 32 (of_Z (36 + recLength * 2)))
  ++ ascii_bytes "WAVE"
  ++ ascii_bytes "fmt "
  ++ RawBytes 4 16
  ++ RawBytes 2 1
  ++ RawBytes 2 (ToUint 16 (ToNumber numChannels))
  ++ RawBytes 4 (ToUint 32 (ToNumber sampleRate))
  ++ RawBytes 4 (ToUint 32 (Number_mul (ToNumber sampleRate) (of_Z 4)))
  ++ RawBytes 2 (ToUint 16 (Number_mul (ToNumber numChannels) (of_Z 2)))
  ++ RawBytes 2 16
  ++ ascii_bytes "data"
  ++ RawBytes 4 (ToUint 32 (of_Z (recLength * 2))).

(** The header writes of [encodeWav], taken apart from the sample loop. *)
Definition write_header (sampleRate numChannels : JSValue) (recLength : Z)
    (view : DataView) : completion DataView :=
  view ← writeString view 0 "RIFF";
  view ← setUint32 view 4 (of_Z (36 + recLength * 2)) true;
  view ← writeString view 8 "WAVE";
  view ← writeString view 12 "fmt ";
  view ← setUint32 view 16 (of_Z 16) true;
  view ← setUint16 view 20 (of_Z 1) true;
  view ← setUint16 view 22 (ToNumber numChannels) true;
  view ← setUint32 view 24 (ToNumber sampleRate) true;
  view ← setUint32 view 28 (Number_mul (ToNumber sampleRate) (of_Z 4)) true;
  view ← setUint16 view 32 (Number_mul (ToNumber numChannels) (of_Z 2)) true;
  view ← setUint16 view 34 (of_Z 16) true;
  view ← writeString view 36 "data";
  setUint32 view 40 (of_Z (recLength * 2)) true.

(** ** The sample conversion as the specification words it

    Over the rationals: clamp to [[-1, 1]], multiply by 32767, truncate
    toward zero. *)

(** The rational [m * 2^e]. *)
Definition dyadic_Q (d : Z * Z) : Q :=
  let (m, e) := d in
  if 0 <=? e then inject_Z (m * 2 ^ e) else Qmake m (Z.to_pos (2 ^ (- e))).

Definition Qclamp (q : Q) : Q :=
  if Qle_bool q (-1) then (-1)%Q else if Qle_bool 1 q then 1%Q else q.

(** Rounding toward zero. *)
Definition Qtrunc (q : Q) : Z := Z.quot (Qnum q) (Zpos (Qden q)).

Definition spec_pcm16 (q : Q) : Z := Qtrunc (Qclamp q * 32767).

(** Two bytes, least significant first, of a value in two's complement. *)
Definition spec_int16_le (z : Z) : list Z := [z mod 256; (z / 256) mod 256].

(** The stored values of all samples, frame after frame and, within a
    frame, in array order, each as two little-endian bytes. *)
Definition samples_in_order (frames : list Frame) : list Z :=
  concat (map (fun frame => concat (map (fun x => spec_int16_le (pcm16 x)) frame)) frames).

(** ** Scenarios *)

Definition half : Number := Finite 1 (-1).
Definition minus_half : Number := Finite (-1) (-1).

(** The value of [half], as a rational. *)
Definition half_Q : Q := dyadic_Q (1, -1).

(** A message with a command the worker does not know. *)
Definition pause_message : Message :=
  {| command := "pause"; config := no_config; buffer := [half]; type := "" |}.

(** One channel at 8000 Hz, and an export with nothing recorded. *)
Definition mono_8000 : list Message :=
  [ InitMsg {| cfg_sampleRate := Num (of_Z 8000); cfg_numChannels := Num (of_Z 1) |};
    ExportWavMsg "audio/wav" ].

Definition blobs_posted (w : Worker.WorkerScope) : list DataView :=
  map (fun r => blob_parts (reply_data r)) (Worker.posted w).

(** Two frames of two samples, recorded at 8000 Hz on one channel and
    exported. *)
Definition two_frames : list Message :=
  [ InitMsg {| cfg_sampleRate := Num (of_Z 8000); cfg_numChannels := Num (of_Z 1) |};
    RecordMsg [half; minus_half];
    RecordMsg [of_Z 1; of_Z (-1)];
    ExportWavMsg "audio/wav" ].

Definition two_frames_blobs : list DataView :=
  blobs_posted (Worker.run two_frames Worker.initial).

(** The sizes the specification gives for [C] channels. *)
Definition sized_by_channels (C : Z) (frames : list Frame) (view : DataView) : Prop :=
  byteLength view = 44 + Worker.total_samples frames * C * 2
  ∧ getUint32_le view 40 = Worker.total_samples frames * C * 2.

(** The sample bytes the specification lists for [two_frames]. *)
Definition two_frames_listed : list Z :=
  [0x00; 0x40; 0x00; 0xC0; 0xFF; 0x7F; 0x01; 0x80].

(** A recording during which [stopRecording] is called twice before the
    worker has answered. *)
Definition overlapping_stops : Service.RecordService :=
  Service.after
    [ Service.Start (of_Z 8000); Service.Stream;
      Service.Audio [half; minus_half]; Service.Stop;
      Service.Audio [of_Z 1; of_Z (-1)]; Service.Stop ].

(** The worker's replies to the messages of that recording, oldest first:
    the reply of rank [k] answers the [exportWav] command of rank [k], which
    the [stopRecording] call of promise [k] posted. *)
Definition overlapping_replies : list Reply :=
  Worker.posted
    (Worker.run (Service.to_worker (Service.effects overlapping_stops)) Worker.initial).

(** The service once it has received these replies. *)
Definition overlapping_done : Service.RecordService :=
  Service.receive overlapping_replies overlapping_stops.

(** Settles the tests [a <=? b] of the goal that the context decides. *)
Ltac Zleb_cases :=
  repeat match goal with
         | |- context [Z.leb ?a ?b] => destruct (Z.leb_spec a b); try lia
         end.

(** ** Reading a view back, and a few notions used further on *)

Definition getUint16_le (view : DataView) (byteOffset : nat) : Z :=
  le_decode (take 2 (drop byteOffset view)).

(** [getInt16] with [littleEndian] set: the two bytes in two's complement. *)
Definition getInt16_le (view : DataView) (byteOffset : nat) : Z :=
  let u := getUint16_le view byteOffset in
  if 2 ^ 15 <=? u then u - 2 ^ 16 else u.

(** The bytes of a tag of [n] characters. *)
Definition getTag (view : DataView) (byteOffset n : nat) : list Z :=
  take n (drop byteOffset view).

(** The opposite of a number. *)
Definition Number_neg (x : Number) : Number :=
  match x with
  | NaN => NaN
  | Infinity s => Infinity (negb s)
  | Finite m e => Finite (- m) e
  end.

(** One recording, as the service sees it: start, the microphone is
    granted, the frames arrive, stop. *)
Definition session (rate : Number) (frames : list Frame) : list Service.action :=
  [Service.Start rate; Service.Stream] ++ map Service.Audio frames ++ [Service.Stop].

(** The commands that such a recording posts to the worker. *)
Definition session_commands (rate : Number) (frames : list Frame) : list Message :=
  [ ClearMsg;
    InitMsg {| cfg_sampleRate := Num rate;
               cfg_numChannels := Num (of_Z Service.numChannels) |} ]
  ++ map RecordMsg frames ++ [ExportWavMsg Service.mimeType].

(** The WAV file of the frames, as a blob. *)
Definition wav_blob (rate : Number) (frames : list Frame) : Blob :=
  {| blob_parts := wav_header (Num rate) (Num (of_Z Service.numChannels))
                     (Worker.total_samples frames)
                   ++ pcm_bytes frames;
     blob_type := Service.mimeType |}.

Definition export_reply (blob : Blob) : Reply :=
  {| reply_command := "exportWav"; reply_data := blob |}.

(** The promises of [stopRecording]: none is rejected, each one is pending
    or had its callback run, and those resolved or waiting for the audio
    context to close are distinct and had their callback run. *)
Definition promises_ok (s : Service.RecordService) : Prop :=
  Service.rejected (Service.effects s) = []
  ∧ Service.promises (Service.effects s)
    = (length (Service.pending s) + length (Service.invoked (Service.effects s)))%nat
  ∧ NoDup (Service.resolved (Service.effects s) ++ Service.closing (Service.effects s))
  ∧ Service.resolved (Service.effects s) ++ Service.closing (Service.effects s)
    ⊆ map fst (Service.invoked (Service.effects s)).

(** ** The recorder component: the control of a recording

    [toggleRecording], [stopRecording] and [animationLoop] of
    [recorder.component.ts].  The drawing done at each step of the
    animation ([setArcSet] and [setAngleArcEnd], floating-point and
    trigonometric computations of two SVG strings) is the parameter
    [draw]; the timeouts of [animationLoop] are the queue [timers], which
    holds the [percent] of each pending timeout, oldest first; an object
    URL is modelled by the blob it designates. *)

Module Component.

Section Drawing.

Variable Svg : Type.

(** [draw percent] is the effect on the SVG fields of the drawing done
    for [angle = percent * angleToSweep]. *)
Variable draw : Z -> Svg -> Svg.

Record RecorderComponent : Type := {
  activeColor : string;
  iconActive : string;
  strokeColor : string;
  icon : string;
  svg : Svg;
  audioFileUrl : option Blob;
  isRecording : bool;
  timers : list Z;
  thens : list nat;
  recordService : Service.RecordService
}.

Definition frameFactor : Z := 500.
Definition recordDuration : Z := 20000.

Definition set_isRecording (b : bool) (c : RecorderComponent) : RecorderComponent :=
  {| activeColor := activeColor c; iconActive := iconActive c;
     strokeColor := strokeColor c; icon := icon c; svg := svg c;
     audioFileUrl := audioFileUrl c; isRecording := b; timers := timers c;
     thens := thens c; recordService := recordService c |}.

Definition set_look (color image : string) (c : RecorderComponent) : RecorderComponent :=
  {| activeColor := activeColor c; iconActive := iconActive c;
     strokeColor := color; icon := image; svg := svg c;
     audioFileUrl := audioFileUrl c; isRecording := isRecording c; timers := timers c;
     thens := thens c; recordService := recordService c |}.

Definition set_svg (g : Svg) (c : RecorderComponent) : RecorderComponent :=
  {| activeColor := activeColor c; iconActive := iconActive c;
     strokeColor := strokeColor c; icon := icon c; svg := g;
     audioFileUrl := audioFileUrl c; isRecording := isRecording c; timers := timers c;
     thens := thens c; recordService := recordService c |}.

Definition set_audioFileUrl (u : option Blob) (c : RecorderComponent) : RecorderComponent :=
  {| activeColor := activeColor c; iconActive := iconActive c;
     strokeColor := strokeColor c; icon := icon c; svg := svg c;
     audioFileUrl := u; isRecording := isRecording c; timers := timers c;
     thens := thens c; recordService := recordService c |}.

Definition set_timers (l : list Z) (c : RecorderComponent) : RecorderComponent :=
  {| activeColor := activeColor c; iconActive := iconActive c;
     strokeColor := strokeColor c; icon := icon c; svg := svg c;
     audioFileUrl := audioFileUrl c; isRecording := isRecording c; timers := l;
     thens := thens c; recordService := recordService c |}.

Definition set_thens (l : list nat) (c : RecorderComponent) : RecorderComponent :=
  {| activeColor := activeColor c; iconActive := iconActive c;
     strokeColor := strokeColor c; icon := icon c; svg := svg c;
     audioFileUrl := audioFileUrl c; isRecording := isRecording c; timers := timers c;
     thens := l; recordService := recordService c |}.

Definition set_recordService (r : Service.RecordService) (c : RecorderComponent)
  : RecorderComponent :=
  {| activeColor := activeColor c; iconActive := iconActive c;
     strokeColor := strokeColor c; icon := icon c; svg := svg c;
     audioFileUrl := audioFileUrl c; isRecording := isRecording c; timers := timers c;
     thens := thens c; recordService := r |}.

(** [animationLoop]: it only sets a timeout. *)
Definition animationLoop (percent : Z) (c : RecorderComponent) : RecorderComponent :=
  set_timers (timers c ++ [percent]) c.

(** [stopRecording] of the component; the callback given to [then] waits
    for the promise. *)
Definition stopRecording (c : RecorderComponent) : RecorderComponent :=
  let c := set_isRecording false c in
  let r := Service.stopRecording (recordService c) in
  set_thens (thens c ++ [fst r]) (set_recordService (snd r) c).

(** The function of a timeout set by [animationLoop percent]. *)
Definition timeout (percent : Z) (c : RecorderComponent) : RecorderComponent :=
  if negb (isRecording c) then c
  else
    let c := set_svg (draw percent (svg c)) c in
    let percent := percent + 1 in
    if percent <=? frameFactor then animationLoop percent c else stopRecording c.

(** The callback that [toggleRecording] hands to [startRecording]. *)
Definition callBackWhenStart (c : RecorderComponent) : RecorderComponent :=
  let c := set_isRecording true c in
  let c := set_look (activeColor c) (iconActive c) c in
  animationLoop 1 c.

(** [toggleRecording]; [rate] is the sample rate of the audio context that
    a start creates. *)
Definition toggleRecording (rate : Number) (c : RecorderComponent) : RecorderComponent :=
  if isRecording c then stopRecording c
  else set_recordService (Service.startRecording rate (recordService c)) c.

(** The callbacks given to [then] whose promise is resolved: each stores
    the object URL of the service's blob, and throws when there is none. *)
Definition run_thens (c : RecorderComponent) : RecorderComponent :=
  let resolved := Service.resolved (Service.effects (recordService c)) in
  let due := filter (fun p => p ∈ resolved) (thens c) in
  let c := set_thens (filter (fun p => p ∉ resolved) (thens c)) c in
  match due, Service.getAudioBlob (recordService c) with
  | _ :: _, Some blob => set_audioFileUrl (Some blob) c
  | _, _ => c
  end.

(** What happens to the component. *)
Inductive event : Type :=
  | Toggle (rate : Number)
  | StreamGranted
  | AudioFrame (channelData : Frame)
  | Tick
  | WorkerReply (r : Reply)
  | ContextClosed.

Definition step (c : RecorderComponent) (ev : event) : RecorderComponent :=
  match ev with
  | Toggle rate => toggleRecording rate c
  | StreamGranted =>
      callBackWhenStart (set_recordService (Service.onStream (recordService c)) c)
  | AudioFrame channelData =>
      set_recordService (Service.onaudioprocess channelData (recordService c)) c
  | Tick =>
      match timers c with
      | [] => c
      | percent :: rest => timeout percent (set_timers rest c)
      end
  | WorkerReply r =>
      run_thens (set_recordService (snd (Service.onmessage r (recordService c))) c)
  | ContextClosed =>
      run_thens (set_recordService (Service.context_closed (recordService c)) c)
  end.

Definition posted (c : RecorderComponent) : list Message :=
  Service.to_worker (Service.effects (recordService c)).

End Drawing.

Arguments activeColor {Svg} _.
Arguments iconActive {Svg} _.
Arguments strokeColor {Svg} _.
Arguments icon {Svg} _.
Arguments svg {Svg} _.
Arguments audioFileUrl {Svg} _.
Arguments isRecording {Svg} _.
Arguments timers {Svg} _.
Arguments thens {Svg} _.
Arguments recordService {Svg} _.
Arguments posted {Svg} _.
Arguments stopRecording {Svg} _.
Arguments animationLoop {Svg} _ _.
Arguments callBackWhenStart {Svg} _.
Arguments toggleRecording {Svg} _ _.
Arguments run_thens {Svg} _.
Arguments timeout {Svg} _ _ _.
Arguments step {Svg} _ _ _.

End Component.

(** The component as it is created, with the service as its constructor
    leaves it, and a drawing that is not looked at. *)
Definition no_draw (percent : Z) (g : unit) : unit := g.

Definition fresh_component : Component.RecorderComponent unit :=
  {| Component.activeColor := "#E20074"; Component.iconActive := "assets/record-act.svg";
     Component.strokeColor := "#333333"; Component.icon := "assets/record.svg";
     Component.svg := tt; Component.audioFileUrl := None;
     Component.isRecording := false; Component.timers := [];
     Component.thens := []; Component.recordService := Service.create |}.

(** The same component once the microphone is granted: it is recording,
    and the first timeout of the animation is pending. *)
Definition recording_component : Component.RecorderComponent unit :=
  Component.step no_draw fresh_component Component.StreamGranted.

(** * Proofs *)

(** ** Stores into a view *)

(** A store that fits in a prefix of the view leaves the rest alone. *)
Lemma SetViewValue_app (pre pre' suf : DataView) (off : Z) (raw : list Z) :
  SetViewValue pre off raw = Normal pre' ->
  SetViewValue (pre ++ suf) off raw = Normal (pre' ++ suf).
Proof.
  unfold SetViewValue, byteLength. intros H.
  destruct (off <? 0) eqn:Hneg; [discriminate|].
  destruct (Z.of_nat (length pre) <? off + Z.of_nat (length raw)) eqn:Hfit;
    [discriminate|].
  cbn [orb] in H. injection H as <-.
  apply Z.ltb_ge in Hneg, Hfit.
  rewrite length_app.
  replace (Z.of_nat (length pre + length suf) <? off + Z.of_nat (length raw))
    with false by (symmetry; apply Z.ltb_ge; lia).
  cbn [orb]. f_equal.
  rewrite take_app_le, drop_app_le by lia.
  by rewrite <- !app_assoc.
Qed.

(** A store of as many bytes as there are between [pre] and [suf]. *)
Lemma SetViewValue_middle (pre old suf : DataView) (raw : list Z) :
  length old = length raw ->
  SetViewValue (pre ++ old ++ suf) (Z.of_nat (length pre)) raw
  = Normal (pre ++ raw ++ suf).
Proof.
  intros Hlen. unfold SetViewValue, byteLength.
  replace (Z.of_nat (length pre) <? 0) with false by (symmetry; apply Z.ltb_ge; lia).
  rewrite !length_app.
  replace (Z.of_nat (length pre + (length old + length suf))
           <? Z.of_nat (length pre) + Z.of_nat (length raw))
    with false by (symmetry; apply Z.ltb_ge; lia).
  cbn [orb]. rewrite Nat2Z.id, take_app_length. do 3 f_equal.
  rewrite drop_app_add, <- Hlen. apply drop_app_length.
Qed.

Lemma writeString_loop_app (s : string) (pre pre' suf : DataView) (offset i : Z) :
  writeString_loop pre offset s i = Normal pre' ->
  writeString_loop (pre ++ suf) offset s i = Normal (pre' ++ suf).
Proof.
  revert pre i. induction s as [|c s IH]; intros pre i; cbn [writeString_loop].
  - by intros [= <-].
  - unfold setUint8.
    destruct (SetViewValue pre _ _) as [v|] eqn:Hv; [|discriminate].
    rewrite (SetViewValue_app _ _ suf _ _ Hv). cbn. apply IH.
Qed.

(** Every header write stays within the prefix it succeeds on. *)
Lemma write_header_app sr nc n (pre pre' suf : DataView) :
  write_header sr nc n pre = Normal pre' ->
  write_header sr nc n (pre ++ suf) = Normal (pre' ++ suf).
Proof.
  unfold write_header, writeString, setUint32, setUint16.
  repeat
    lazymatch goal with
    | |- (_ ← ?c; _) = _ -> _ =>
        let v := fresh "v" in
        let Hv := fresh "Hv" in
        destruct c as [v|] eqn:Hv; [|discriminate];
        first [ rewrite (writeString_loop_app _ _ _ suf _ _ Hv)
              | rewrite (SetViewValue_app _ _ suf _ _ Hv) ];
        cbn [mbind completion_bind]
    end.
  apply SetViewValue_app.
Qed.

Lemma write_header_zeros sr nc n :
  write_header sr nc n (replicate 44 0) = Normal (wav_header sr nc n).
Proof.
  unfold write_header, wav_header, writeString, setUint32, setUint16,
    NumericToRawBytes.
  generalize (ToUint 32 (of_Z (36 + n * 2))) (ToUint 16 (ToNumber nc))
    (ToUint 32 (ToNumber sr)) (ToUint 32 (Number_mul (ToNumber sr) (of_Z 4)))
    (ToUint 16 (Number_mul (ToNumber nc) (of_Z 2))) (ToUint 32 (of_Z (n * 2))).
  intros u1 u2 u3 u4 u5 u6.
  cbv - [Z.modulo Z.div]. reflexivity.
Qed.

(** ** The sample loop *)

Lemma length_RawBytes n u : length (RawBytes n u) = n.
Proof. revert u. induction n as [|n IH]; intros u; cbn; [done|by rewrite IH]. Qed.

Lemma length_frame_bytes (frame : Frame) :
  length (frame_bytes frame) = (2 * length frame)%nat.
Proof.
  unfold frame_bytes. induction frame as [|x frame IH]; [done|].
  cbn [map concat length]. rewrite length_app, IH.
  unfold int16_le. rewrite length_RawBytes. lia.
Qed.

Lemma total_samples_cons (f : Frame) (frames : list Frame) :
  Worker.total_samples (f :: frames)
  = Z.of_nat (length f) + Worker.total_samples frames.
Proof. reflexivity. Qed.

Lemma total_samples_nonneg (frames : list Frame) : 0 <= Worker.total_samples frames.
Proof.
  induction frames as [|f frames IH]; [done|]. rewrite total_samples_cons. lia.
Qed.

Lemma total_samples_app (l k : list Frame) :
  Worker.total_samples (l ++ k) = Worker.total_samples l + Worker.total_samples k.
Proof.
  induction l as [|f l IH]; [done|].
  rewrite <- app_comm_cons, !total_samples_cons, IH. lia.
Qed.

Lemma length_pcm_bytes (frames : list Frame) :
  Z.of_nat (length (pcm_bytes frames)) = Worker.total_samples frames * 2.
Proof.
  unfold pcm_bytes. induction frames as [|f frames IH]; [done|].
  cbn [map concat]. rewrite total_samples_cons, length_app, length_frame_bytes.
  lia.
Qed.

(** One frame, written over the zeros that follow [pre]. *)
Lemma buffersTo16BitPCM_frame_spec (frame : Frame) (pre suf : DataView) :
  buffersTo16BitPCM_frame (pre ++ replicate (2 * length frame) 0 ++ suf)
    (Z.of_nat (length pre)) frame
  = Normal (pre ++ frame_bytes frame ++ suf,
            Z.of_nat (length pre) + 2 * Z.of_nat (length frame)).
Proof.
  revert pre. induction frame as [|x frame IH]; intros pre.
  - cbn. do 2 f_equal. lia.
  - cbn [buffersTo16BitPCM_frame length]. unfold setInt16, NumericToRawBytes.
    replace (2 * S (length frame))%nat with (2 + 2 * length frame)%nat by lia.
    rewrite replicate_add, <- (app_assoc (replicate 2 0)).
    rewrite SetViewValue_middle by (by rewrite length_RawBytes).
    cbn [mbind completion_bind].
    fold (pcm16 x). fold (int16_le (pcm16 x)).
    rewrite (app_assoc pre).
    replace (Z.of_nat (length pre) + 2)
      with (Z.of_nat (length (pre ++ int16_le (pcm16 x))))
      by (rewrite length_app; unfold int16_le; rewrite length_RawBytes; lia).
    rewrite IH. f_equal. f_equal.
    + unfold frame_bytes. cbn [map concat]. by rewrite <- !app_assoc.
    + rewrite length_app. unfold int16_le. rewrite length_RawBytes. lia.
Qed.

(** All frames, in order. *)
Lemma buffersTo16BitPCM_spec (frames : list Frame) (pre : DataView) :
  buffersTo16BitPCM
    (pre ++ replicate (Z.to_nat (Worker.total_samples frames * 2)) 0)
    (Z.of_nat (length pre)) frames
  = Normal (pre ++ pcm_bytes frames).
Proof.
  revert pre. induction frames as [|f frames IH]; intros pre.
  - reflexivity.
  - cbn [buffersTo16BitPCM]. rewrite total_samples_cons.
    pose proof (total_samples_nonneg frames) as Hnn.
    replace (Z.to_nat ((Z.of_nat (length f) + Worker.total_samples frames) * 2))
      with (2 * length f + Z.to_nat (Worker.total_samples frames * 2))%nat by lia.
    rewrite replicate_add, buffersTo16BitPCM_frame_spec.
    cbn [mbind completion_bind].
    rewrite (app_assoc pre).
    replace (Z.of_nat (length pre) + 2 * Z.of_nat (length f))
      with (Z.of_nat (length (pre ++ frame_bytes f)))
      by (rewrite length_app, length_frame_bytes; lia).
    rewrite IH. unfold pcm_bytes. cbn [map concat]. by rewrite <- !app_assoc.
Qed.

(** ** The encoder *)

Lemma encodeWav_split sr nc (frames : list Frame) (n : Z) :
  encodeWav sr nc frames n
  = (buffer ← new_ArrayBuffer (44 + n * 2);
     view ← write_header sr nc n buffer;
     buffersTo16BitPCM view 44 frames).
Proof.
  unfold encodeWav, write_header.
  destruct (new_ArrayBuffer _) as [buffer|]; [|done].
  cbn [mbind completion_bind].
  repeat
    lazymatch goal with
    | |- (_ ← ?c; _) = _ =>
        destruct c; [|done]; cbn [mbind completion_bind]
    end.
  done.
Qed.

Lemma length_wav_header sr nc n : length (wav_header sr nc n) = 44%nat.
Proof. reflexivity. Qed.

(** When [recLength] counts the samples of [recBuffers], as it does in the
    worker, [encodeWav] returns the header followed by the samples. *)
Lemma encodeWav_spec sr nc (frames : list Frame) :
  encodeWav sr nc frames (Worker.total_samples frames)
  = Normal (wav_header sr nc (Worker.total_samples frames) ++ pcm_bytes frames).
Proof.
  rewrite encodeWav_split. unfold new_ArrayBuffer.
  pose proof (total_samples_nonneg frames) as Hnn.
  replace (44 + Worker.total_samples frames * 2 <? 0)
    with false by (symmetry; apply Z.ltb_ge; lia).
  cbn [mbind completion_bind].
  replace (Z.to_nat (44 + Worker.total_samples frames * 2))
    with (44 + Z.to_nat (Worker.total_samples frames * 2))%nat by lia.
  rewrite replicate_add.
  rewrite (write_header_app _ _ _ _ _ _ (write_header_zeros sr nc _)).
  cbn [mbind completion_bind].
  change 44 with (Z.of_nat (length (wav_header sr nc (Worker.total_samples frames)))).
  apply buffersTo16BitPCM_spec.
Qed.

(** ** The sample conversion refines its specification *)

Lemma Number_lt_one (m e : Z) :
  Number_lt (Finite m e) (of_Z 1)
  = if 0 <=? e then m * 2 ^ e <? 1 else m <? 2 ^ (- e).
Proof.
  unfold of_Z, Number_lt, dyadic_compare, Z.ltb.
  destruct (0 <=? e) eqn:He.
  - apply Z.leb_le in He. rewrite Z.min_r by lia.
    by rewrite !Z.sub_0_r.
  - apply Z.leb_gt in He. rewrite Z.min_l by lia.
    by rewrite Z.sub_diag, Z.sub_0_l, Z.mul_1_r, Z.mul_1_l.
Qed.

Lemma Number_gt_minus_one (m e : Z) :
  Number_lt (of_Z (-1)) (Finite m e)
  = if 0 <=? e then -1 <? m * 2 ^ e else - 2 ^ (- e) <? m.
Proof.
  unfold of_Z, Number_lt, dyadic_compare, Z.ltb.
  destruct (0 <=? e) eqn:He.
  - apply Z.leb_le in He. rewrite Z.min_l by lia.
    by rewrite !Z.sub_0_r.
  - apply Z.leb_gt in He. rewrite Z.min_r by lia.
    rewrite Z.sub_diag, Z.sub_0_l, Z.mul_1_r.
    by replace (-1 * 2 ^ (- e)) with (- 2 ^ (- e)) by lia.
Qed.

Lemma Math_min_Finite (a m e : Z) :
  Math_min (of_Z a) (Finite m e)
  = if Number_lt (Finite m e) (of_Z a) then Finite m e else of_Z a.
Proof. reflexivity. Qed.

Lemma Math_max_Finite (a m e : Z) :
  Math_max (of_Z a) (Finite m e)
  = if Number_lt (of_Z a) (Finite m e) then Finite m e else of_Z a.
Proof. reflexivity. Qed.

(** A value that fits in 16 bits survives the wrap-around of [ToInt16]. *)
Lemma int16_wrap (t : Z) :
  - 2 ^ 15 <= t < 2 ^ 15 ->
  (if 2 ^ 15 <=? t mod 2 ^ 16 then t mod 2 ^ 16 - 2 ^ 16 else t mod 2 ^ 16) = t.
Proof.
  intros Ht. change (2 ^ 15) with 32768 in *. change (2 ^ 16) with 65536.
  destruct (Z.leb_spec 32768 (t mod 65536)); Z.div_mod_to_equations; lia.
Qed.

Lemma Qtrunc_bounds (n : Z) (d : positive) :
  - Zpos d <= n <= Zpos d ->
  -32767 <= Z.quot (n * 32767) (Zpos d) <= 32767.
Proof.
  intros Hn. split.
  - apply Z.quot_le_lower_bound; lia.
  - apply Z.quot_le_upper_bound; lia.
Qed.

Lemma spec_pcm16_cases (q : Q) :
  spec_pcm16 q
  = if Qnum q <=? - Zpos (Qden q) then -32767
    else if Zpos (Qden q) <=? Qnum q then 32767
    else Z.quot (Qnum q * 32767) (Zpos (Qden q)).
Proof.
  unfold spec_pcm16, Qclamp, Qle_bool. destruct q as [n d]. cbn [Qnum Qden].
  rewrite !Z.mul_1_r, Z.mul_1_l.
  replace (-1 * Zpos d) with (- Zpos d) by lia.
  destruct (n <=? - Zpos d); [reflexivity|].
  destruct (Zpos d <=? n); [reflexivity|].
  unfold Qtrunc. cbn [Qmult Qnum Qden]. by rewrite Pos.mul_1_r.
Qed.

Lemma spec_pcm16_range (q : Q) : -32767 <= spec_pcm16 q <= 32767.
Proof.
  rewrite spec_pcm16_cases.
  destruct (Z.leb_spec (Qnum q) (- Zpos (Qden q))); [lia|].
  destruct (Z.leb_spec (Zpos (Qden q)) (Qnum q)); [lia|].
  apply Qtrunc_bounds. lia.
Qed.

Lemma spec_pcm16_unit (q : Q) :
  (-1 <= q)%Q -> (q <= 1)%Q -> spec_pcm16 q = Qtrunc (q * 32767).
Proof.
  rewrite spec_pcm16_cases. unfold Qle, Qtrunc. destruct q as [n d].
  cbn [Qnum Qden Qmult]. rewrite Pos.mul_1_r. intros Hlo Hhi.
  destruct (Z.leb_spec n (- Zpos d)).
  - replace n with (- Zpos d) by lia.
    replace (- Zpos d * 32767) with (-32767 * Zpos d) by lia.
    by rewrite Z.quot_mul.
  - destruct (Z.leb_spec (Zpos d) n); [|done].
    replace n with (Zpos d) by lia.
    rewrite (Z.mul_comm (Zpos d)). by rewrite Z.quot_mul.
Qed.

(** On a finite sample the encoder computes what the specification says. *)
Lemma pcm16_Finite (m e : Z) : pcm16 (Finite m e) = spec_pcm16 (dyadic_Q (m, e)).
Proof.
  rewrite spec_pcm16_cases. unfold pcm16.
  rewrite Math_min_Finite, Number_lt_one. unfold dyadic_Q.
  destruct (Z.leb_spec 0 e) as [He|He].
  - (* an integer *)
    assert (0 < 2 ^ e) by (apply Z.pow_pos_nonneg; lia).
    cbn [inject_Z Qnum Qden].
    destruct (Z.ltb_spec (m * 2 ^ e) 1) as [Hlt|Hge].
    + rewrite Math_max_Finite, Number_gt_minus_one.
      destruct (Z.leb_spec 0 e); [|lia].
      destruct (Z.ltb_spec (-1) (m * 2 ^ e)) as [Hgt|Hle]; Zleb_cases;
        [|reflexivity].
      unfold Number_mul, of_Z, ToInt16, ToUint, truncate.
      destruct (Z.leb_spec 0 (e + 0)); [|lia].
      rewrite Z.add_0_r, Z.quot_1_r.
      replace (m * 32767 * 2 ^ e) with (m * 2 ^ e * 32767) by lia.
      apply int16_wrap. change (2 ^ 15) with 32768. lia.
    + Zleb_cases. reflexivity.
  - (* a fraction *)
    assert (0 < 2 ^ (- e)) as Hpos by (apply Z.pow_pos_nonneg; lia).
    cbn [Qnum Qden]. rewrite Z2Pos.id by done.
    destruct (Z.ltb_spec m (2 ^ (- e))) as [Hlt|Hge].
    + rewrite Math_max_Finite, Number_gt_minus_one.
      destruct (Z.leb_spec 0 e); [lia|].
      destruct (Z.ltb_spec (- 2 ^ (- e)) m) as [Hgt|Hle]; Zleb_cases;
        [|reflexivity].
      unfold Number_mul, of_Z, ToInt16, ToUint, truncate.
      destruct (Z.leb_spec 0 (e + 0)); [lia|].
      rewrite Z.add_0_r.
      apply int16_wrap. change (2 ^ 15) with 32768.
      pose proof (Qtrunc_bounds m (Z.to_pos (2 ^ (- e)))) as Hb.
      rewrite Z2Pos.id in Hb by done. lia.
    + Zleb_cases. reflexivity.
Qed.

(** For a sample of a [Float32Array] the product with 32767 is a number
    in double precision, so that the exact product of [Number_mul] is the
    product the language computes. *)
Lemma scaled_float32 (m e : Z) :
  float32 m e ->
  ∃ m' e' : Z, scaled (Finite m e) = Finite m' e' ∧ binary64 m' e'.
Proof.
  intros [Hm He]. unfold scaled, binary64. rewrite Math_min_Finite.
  change (2 ^ 24) with 16777216 in Hm. change (2 ^ 53) with 9007199254740992.
  destruct (Number_lt (Finite m e) (of_Z 1)).
  - rewrite Math_max_Finite. destruct (Number_lt (of_Z (-1)) (Finite m e)).
    + exists (m * 32767), (e + 0). split; [reflexivity|]. lia.
    + exists (-1 * 32767), (0 + 0). split; [reflexivity|]. lia.
  - exists (1 * 32767), (0 + 0). split; [reflexivity|]. lia.
Qed.

(** What is not a finite number: [NaN] is stored as 0, the infinities as
    the extreme values. *)
Lemma pcm16_not_finite :
  pcm16 NaN = 0 ∧ pcm16 (Infinity false) = 32767 ∧ pcm16 (Infinity true) = -32767.
Proof. by vm_compute. Qed.

(** ** Reading the header back *)

Lemma le_decode_RawBytes (n : nat) (u : Z) :
  le_decode (RawBytes n u) = u mod 256 ^ Z.of_nat n.
Proof.
  revert u. induction n as [|n IH]; intros u.
  - cbn. by rewrite Z.mod_1_r.
  - cbn [RawBytes le_decode foldr]. fold (le_decode (RawBytes n (u / 256))).
    rewrite IH, Nat2Z.inj_succ, Z.pow_succ_r by lia.
    rewrite Z.rem_mul_r by lia. reflexivity.
Qed.

Lemma ToUint_of_Z (w z : Z) : ToUint w (of_Z z) = z mod 2 ^ w.
Proof. unfold ToUint, of_Z, truncate. cbn. by rewrite Z.mul_1_r. Qed.

Lemma Subchunk2Size_field sr nc n (data : list Z) :
  getUint32_le (wav_header sr nc n ++ data) 40 = (n * 2) mod 2 ^ 32.
Proof.
  transitivity (le_decode (RawBytes 4 (ToUint 32 (of_Z (n * 2))))).
  - unfold wav_header. generalize (ToUint 32 (of_Z (n * 2))). intros u.
    reflexivity.
  - rewrite le_decode_RawBytes, ToUint_of_Z.
    change (256 ^ Z.of_nat 4) with (2 ^ 32). by rewrite Z.mod_mod.
Qed.

Lemma ByteRate_field (sr : Z) nc n (data : list Z) :
  getUint32_le (wav_header (Num (of_Z sr)) nc n ++ data) 28 = (sr * 4) mod 2 ^ 32.
Proof.
  transitivity (le_decode (RawBytes 4 (ToUint 32 (of_Z (sr * 4))))).
  - unfold wav_header.
    change (Number_mul (ToNumber (Num (of_Z sr))) (of_Z 4)) with (of_Z (sr * 4)).
    generalize (ToUint 32 (of_Z (sr * 4))). intros u. reflexivity.
  - rewrite le_decode_RawBytes, ToUint_of_Z.
    change (256 ^ Z.of_nat 4) with (2 ^ 32). by rewrite Z.mod_mod.
Qed.

Lemma int16_le_spec (z : Z) : int16_le z = spec_int16_le z.
Proof.
  unfold int16_le, spec_int16_le. cbn [RawBytes]. change (2 ^ 16) with 65536.
  f_equal; [|f_equal]; Z.div_mod_to_equations; lia.
Qed.

Lemma pcm_bytes_in_order (frames : list Frame) :
  pcm_bytes frames = samples_in_order frames.
Proof.
  unfold pcm_bytes, samples_in_order. f_equal. apply map_ext. intros frame.
  unfold frame_bytes. f_equal. apply map_ext. intros x. apply int16_le_spec.
Qed.

(** ** The worker's message loop *)

Lemma run_app (l k : list Message) (w : Worker.WorkerScope) :
  Worker.run (l ++ k) w = Worker.run k (Worker.run l w).
Proof. apply foldl_app. Qed.

Lemma run_cons (event : Message) (l : list Message) (w : Worker.WorkerScope) :
  Worker.run (event :: l) w = Worker.run l (snd (Worker.onmessage event w)).
Proof. reflexivity. Qed.

(** Every pending [record] command is accumulated, in the order sent. *)
Lemma run_records (frames : list Frame) (w : Worker.WorkerScope) :
  let w' := Worker.run (map RecordMsg frames) w in
  Worker.recBuffers w' = Worker.recBuffers w ++ frames
  ∧ Worker.recLength w' = Worker.recLength w + Worker.total_samples frames
  ∧ Worker.sampleRate w' = Worker.sampleRate w
  ∧ Worker.numChannels w' = Worker.numChannels w
  ∧ Worker.posted w' = Worker.posted w.
Proof.
  revert w. induction frames as [|f frames IH]; intros w.
  - cbn. rewrite app_nil_r. repeat split; lia.
  - cbn [map]. rewrite run_cons.
    change (snd (Worker.onmessage (RecordMsg f) w)) with (Worker.record f w).
    destruct (IH (Worker.record f w)) as (Hb & Hl & Hs & Hn & Hp).
    cbn zeta. rewrite Hb, Hl, Hs, Hn, Hp, total_samples_cons. cbn.
    rewrite <- app_assoc. repeat split; lia.
Qed.

Lemma onmessage_preserves_accumulator (event : Message) (w : Worker.WorkerScope) :
  Worker.accumulator_ok w -> Worker.accumulator_ok (snd (Worker.onmessage event w)).
Proof.
  intros [Hsum Hnn]. unfold Worker.onmessage.
  repeat (destruct (String.eqb _ _)); cbn [snd].
  - done.
  - split; cbn.
    + rewrite total_samples_app, Hsum. cbn. lia.
    + lia.
  - unfold Worker.exportWav. by destruct (encodeWav _ _ _ _).
  - done.
  - done.
Qed.

Lemma run_preserves_accumulator (events : list Message) (w : Worker.WorkerScope) :
  Worker.accumulator_ok w -> Worker.accumulator_ok (Worker.run events w).
Proof.
  revert w. induction events as [|event events IH]; intros w Hw; [done|].
  rewrite run_cons. by apply IH, onmessage_preserves_accumulator.
Qed.

Lemma exportWav_ok (mime : string) (w : Worker.WorkerScope) :
  Worker.accumulator_ok w ->
  Worker.exportWav mime w
  = (Normal (),
     Worker.postMessage
       {| reply_command := "exportWav";
          reply_data :=
            {| blob_parts := wav_header (Worker.sampleRate w) (Worker.numChannels w)
                               (Worker.recLength w)
                             ++ pcm_bytes (Worker.recBuffers w);
               blob_type := Blob_type mime |} |} w).
Proof.
  intros [Hsum _]. unfold Worker.exportWav. by rewrite Hsum, encodeWav_spec.
Qed.

(** ** The service *)

Lemma pop_snoc {A : Type} (l : list A) (x : A) : Service.pop (l ++ [x]) = Some (l, x).
Proof. unfold Service.pop. by rewrite last_snoc, removelast_last. Qed.

Lemma stopRecording_spec (s : Service.RecordService) (stack : list nat) :
  Service.callbacks s !! "exportWav" = Some stack ->
  Service.stopRecording s
  = (Service.promises (Service.effects s),
     Service.postMessage (ExportWavMsg Service.mimeType)
       (Service.set_callbacks
          (<["exportWav" := stack ++ [Service.promises (Service.effects s)]]>
             (Service.callbacks s))
          (Service.new_promise s))).
Proof. intros H. unfold Service.stopRecording. cbn. by rewrite H. Qed.

(** A reply goes to the callback pushed last, which leaves the stack. *)
Lemma onmessage_pops (s : Service.RecordService) (stack : list nat) (p : nat)
    (blob : Blob) :
  Service.callbacks s !! "exportWav" = Some (stack ++ [p]) ->
  let s' := snd (Service.onmessage {| reply_command := "exportWav"; reply_data := blob |} s) in
  Service.invoked (Service.effects s') = Service.invoked (Service.effects s) ++ [(p, blob)]
  ∧ Service.callbacks s' = <["exportWav" := stack]> (Service.callbacks s)
  ∧ Service.audioBlob s' = Some blob
  ∧ Service.promises (Service.effects s') = Service.promises (Service.effects s).
Proof.
  intros H. unfold Service.onmessage. cbn [reply_command reply_data].
  rewrite H, pop_snoc. unfold Service.export_callback.
  destruct s as [ctx src proc rate blob0 cbs eff]. cbn in *.
  destruct proc, src, ctx as [[]|]; cbn; done.
Qed.

(** The steps that neither push nor pop a callback. *)
Lemma quiet_step_preserves (s s' : Service.RecordService) :
  Service.callbacks s' = Service.callbacks s ->
  Service.invoked (Service.effects s') = Service.invoked (Service.effects s) ->
  Service.promises (Service.effects s') = Service.promises (Service.effects s) ->
  Service.callbacks_ok s -> Service.callbacks_ok s'.
Proof.
  intros Hc Hi Hp (stack & Hs & Hnd & Hlt). exists stack.
  by rewrite Hc, Hi, Hp.
Qed.

Lemma step_preserves_callbacks_ok (s : Service.RecordService) (a : Service.action) :
  Service.callbacks_ok s -> Service.callbacks_ok (Service.step s a).
Proof.
  intros Hs. destruct a as [rate| |frame| |event|]; cbn [Service.step].
  - by apply (quiet_step_preserves s).
  - by apply (quiet_step_preserves s).
  - by apply (quiet_step_preserves s).
  - destruct Hs as (stack & Hs & Hnd & Hlt).
    rewrite (stopRecording_spec s stack) by (by rewrite Hs, lookup_singleton_eq).
    set (p := Service.promises (Service.effects s)) in *.
    exists (stack ++ [p]). cbn. fold p. rewrite Hs, insert_singleton_eq.
    split; [done|]. rewrite <- app_assoc.
    assert (p ∉ stack ++ map fst (Service.invoked (Service.effects s))) as Hfresh.
    { intros Hin. rewrite Forall_forall in Hlt. specialize (Hlt p Hin). lia. }
    split.
    + rewrite NoDup_app in Hnd. destruct Hnd as (Hn1 & Hn2 & Hn3).
      rewrite elem_of_app in Hfresh.
      rewrite NoDup_app. split; [done|]. split.
      * intros x Hx. cbn [app]. rewrite elem_of_cons. intros [->|Hx']; [tauto|].
        by apply (Hn2 x).
      * cbn [app]. apply NoDup_cons. tauto.
    + rewrite Forall_app in *. destruct Hlt as [Hl1 Hl2]. split.
      * eapply Forall_impl; [exact Hl1|]. cbn. lia.
      * cbn [app]. apply Forall_cons. split; [lia|].
        eapply Forall_impl; [exact Hl2|]. cbn. lia.
  - destruct Hs as (stack & Hs & Hnd & Hlt).
    destruct event as [cmd blob].
    destruct (decide (cmd = "exportWav")) as [->|Hne].
    + destruct stack as [|p stack _] using rev_ind.
      * unfold Service.onmessage. cbn [reply_command].
        rewrite Hs, lookup_singleton_eq. cbn. by exists [].
      * destruct (onmessage_pops s stack p blob) as (Hi & Hc & _ & Hp);
          [by rewrite Hs, lookup_singleton_eq|].
        exists stack. rewrite Hi, Hc, Hp, Hs, insert_singleton_eq.
        split; [done|]. rewrite map_app. cbn [map fst].
        assert (stack ++ map fst (Service.invoked (Service.effects s)) ++ [p]
                ≡ₚ (stack ++ [p]) ++ map fst (Service.invoked (Service.effects s)))
          as Hperm.
        { rewrite <- !app_assoc. apply Permutation_app_head, Permutation_app_comm. }
        by rewrite Hperm.
    + unfold Service.onmessage. cbn [reply_command].
      rewrite Hs, lookup_singleton_ne by done. cbn. by exists stack.
  - apply (quiet_step_preserves s); try done.
    + unfold Service.context_closed. by destruct (Service.closing _).
    + unfold Service.context_closed. by destruct (Service.closing _).
    + unfold Service.context_closed. by destruct (Service.closing _).
Qed.

Lemma after_callbacks_ok (actions : list Service.action) :
  Service.callbacks_ok (Service.after actions).
Proof.
  unfold Service.after.
  assert (Service.callbacks_ok Service.create) as H0.
  { exists []. repeat split; cbn; constructor. }
  revert H0. generalize Service.create.
  induction actions as [|a actions IH]; intros s Hs; [done|].
  cbn. by apply IH, step_preserves_callbacks_ok.
Qed.

(** * The claims *)

(** C1. The 16-bit values of the samples are stored little-endian from
    byte 44 on, frame after frame in arrival order and in array order within
    a frame.  A frame is a [Float32Array]: for every finite sample
    [m * 2^e] of single precision, the product of the clamped sample with
    32767 is a number of double precision, which the language computes
    without rounding, and the value stored is the sample clamped to
    [-1, 1], multiplied by 32767 and truncated toward zero; it lies within
    [-32767, 32767], and for a sample within [-1, 1] it is the truncation
    of 32767 times the sample.  The infinities are stored as the extreme
    values. *)
Theorem sample_conversion sr nc (frames : list Frame) :
  (∃ view : DataView,
      encodeWav sr nc frames (Worker.total_samples frames) = Normal view
      ∧ drop 44 view = samples_in_order frames)
  ∧ (∀ m e : Z,
        float32 m e ->
        (∃ m' e' : Z, scaled (Finite m e) = Finite m' e' ∧ binary64 m' e')
        ∧ pcm16 (Finite m e) = ToInt16 (scaled (Finite m e))
        ∧ pcm16 (Finite m e) = spec_pcm16 (dyadic_Q (m, e))
        ∧ -32767 <= pcm16 (Finite m e) <= 32767)
  ∧ (∀ m e : Z,
        float32 m e ->
        (-1 <= dyadic_Q (m, e))%Q -> (dyadic_Q (m, e) <= 1)%Q ->
        pcm16 (Finite m e) = Qtrunc (dyadic_Q (m, e) * 32767))
  ∧ pcm16 (Infinity false) = 32767
  ∧ pcm16 (Infinity true) = -32767.
Proof.
  split; [|split; [|split]].
  - exists (wav_header sr nc (Worker.total_samples frames) ++ pcm_bytes frames).
    split; [apply encodeWav_spec|].
    rewrite drop_app_length' by (by rewrite length_wav_header).
    apply pcm_bytes_in_order.
  - intros m e Hf. split; [by apply scaled_float32|]. split; [reflexivity|].
    rewrite pcm16_Finite. split; [done|]. apply spec_pcm16_range.
  - intros m e _ Hlo Hhi. rewrite pcm16_Finite. by apply spec_pcm16_unit.
  - split; reflexivity.
Qed.

Lemma sample_conversion_witness :
  float32 1 (-1) ∧ (-1 <= half_Q)%Q ∧ (half_Q <= 1)%Q
  ∧ pcm16 (Finite 1 (-1)) = Qtrunc (half_Q * 32767).
Proof.
  assert (float32 1 (-1)) as Hf by (unfold float32; simpl; lia).
  assert ((-1 <= half_Q)%Q) as Hlo by (unfold Qle; simpl; lia).
  assert ((half_Q <= 1)%Q) as Hhi by (unfold Qle; simpl; lia).
  split; [exact Hf|]. split; [exact Hlo|]. split; [exact Hhi|].
  exact (proj1 (proj2 (proj2 (sample_conversion Undefined Undefined [])))
           1 (-1) Hf Hlo Hhi).
Defined.

(** C2, as stated, fails: with two channels and one recorded sample the
    encoder returns 46 bytes, not 44 + 1 * 2 * 2. *)
Lemma sizes_ignore_channel_count :
  ∃ view : DataView,
    encodeWav (Num (of_Z 8000)) (Num (of_Z 2)) [[of_Z 0]]
      (Worker.total_samples [[of_Z 0]]) = Normal view
    ∧ byteLength view = 46
    ∧ ¬ sized_by_channels 2 [[of_Z 0]] view.
Proof.
  eexists. split; [vm_compute; reflexivity|]. split; [reflexivity|].
  intros [Hlen _]. vm_compute in Hlen. discriminate.
Qed.

(** C2, amended. Whatever the sample rate and the channel count, for frames
    holding N samples in all the encoder returns 44 + N * 2 bytes and stores
    N * 2 (modulo 2^32) at offset 40, which are the sizes of the
    specification for one channel; with no frame it returns the 44 bytes of
    the header, with a data size of 0. *)
Theorem encode_sizes sr nc (frames : list Frame) :
  let n := Worker.total_samples frames in
  ∃ view : DataView,
    encodeWav sr nc frames n = Normal view
    ∧ byteLength view = 44 + n * 2
    ∧ getUint32_le view 40 = (n * 2) mod 2 ^ 32
    ∧ (n * 2 < 2 ^ 32 -> sized_by_channels 1 frames view)
    ∧ (frames = [] -> view = wav_header sr nc 0 ∧ getUint32_le view 40 = 0).
Proof.
  intros n. exists (wav_header sr nc n ++ pcm_bytes frames).
  pose proof (total_samples_nonneg frames) as Hnn. fold n in Hnn.
  assert (byteLength (wav_header sr nc n ++ pcm_bytes frames) = 44 + n * 2) as Hlen.
  { unfold byteLength. rewrite length_app, Nat2Z.inj_add, length_pcm_bytes.
    by rewrite length_wav_header. }
  split; [apply encodeWav_spec|]. split; [exact Hlen|].
  split; [apply Subchunk2Size_field|]. split.
  - intros Hsmall. unfold sized_by_channels. fold n.
    rewrite Subchunk2Size_field, Z.mod_small by lia. lia.
  - intros ->. by rewrite app_nil_r.
Qed.

Lemma encode_sizes_witness :
  ∃ view : DataView,
    encodeWav (Num (of_Z 8000)) (Num (of_Z 2)) [[of_Z 0]] 1 = Normal view
    ∧ sized_by_channels 1 [[of_Z 0]] view.
Proof.
  destruct (encode_sizes (Num (of_Z 8000)) (Num (of_Z 2)) [[of_Z 0]])
    as (view & Hv & _ & _ & Hsized & _).
  exists view. split; [exact Hv|]. apply Hsized. vm_compute. reflexivity.
Defined.

(** The byte rate the encoder stores, for an integer sample rate. *)
Lemma ByteRate_is_four_times_sampleRate (sr : Z) nc (frames : list Frame) :
  ∃ view : DataView,
    encodeWav (Num (of_Z sr)) nc frames (Worker.total_samples frames) = Normal view
    ∧ getUint32_le view 28 = (sr * 4) mod 2 ^ 32.
Proof.
  eexists. split; [apply encodeWav_spec|]. apply ByteRate_field.
Qed.

(** C3. Initialised for one channel at 8000 Hz, the worker exports a header
    that holds a byte rate of 32000, where sample rate * channels * 2 is
    16000. *)
Theorem ByteRate_mono_8000 :
  ∃ view : DataView,
    blobs_posted (Worker.run mono_8000 Worker.initial) = [view]
    ∧ getUint32_le view 28 = 32000
    ∧ getUint32_le view 28 ≠ 8000 * 1 * 2.
Proof.
  eexists. split; [vm_compute; reflexivity|]. split; [reflexivity|].
  vm_compute. discriminate.
Qed.

(** C4. When the accumulator is empty and N record commands are followed by
    an export command, the worker, which takes its messages in the order
    they were sent, has accumulated exactly these N frames, in that order,
    when it handles the export, and the blob it posts encodes them. *)
Theorem export_reflects_recorded_frames (w : Worker.WorkerScope)
    (frames : list Frame) (mime : string) :
  Worker.recBuffers w = [] -> Worker.recLength w = 0 ->
  let w1 := Worker.run (map RecordMsg frames) w in
  Worker.recBuffers w1 = frames
  ∧ Worker.recLength w1 = Worker.total_samples frames
  ∧ Worker.run (map RecordMsg frames ++ [ExportWavMsg mime]) w
    = Worker.postMessage
        {| reply_command := "exportWav";
           reply_data :=
             {| blob_parts := wav_header (Worker.sampleRate w) (Worker.numChannels w)
                                (Worker.total_samples frames)
                              ++ pcm_bytes frames;
                blob_type := Blob_type mime |} |} w1.
Proof.
  intros Hb Hl w1.
  destruct (run_records frames w) as (Hb1 & Hl1 & Hs1 & Hn1 & _). fold w1 in Hb1, Hl1, Hs1, Hn1.
  rewrite Hb in Hb1. rewrite Hl in Hl1. cbn in Hb1, Hl1.
  split; [exact Hb1|]. split; [exact Hl1|].
  rewrite run_app. fold w1. cbn.
  change (Worker.onmessage (ExportWavMsg mime) w1) with (Worker.exportWav mime w1).
  rewrite exportWav_ok.
  - cbn [snd]. by rewrite Hb1, Hl1, Hs1, Hn1.
  - split; [by rewrite Hb1, Hl1|]. rewrite Hl1. apply total_samples_nonneg.
Qed.

Lemma export_reflects_recorded_frames_witness :
  Worker.recBuffers (Worker.run [RecordMsg [half]; RecordMsg [minus_half]] Worker.initial)
  = [[half]; [minus_half]].
Proof.
  exact (proj1 (export_reflects_recorded_frames Worker.initial
                  [[half]; [minus_half]] "audio/wav" eq_refl eq_refl)).
Defined.

(** The service posts its commands in the order of the calls. *)
Lemma commands_posted_in_call_order (frames : list Frame) (s : Service.RecordService) :
  is_Some (Service.callbacks s !! "exportWav") ->
  Service.to_worker
    (Service.effects (foldl Service.step s (map Service.Audio frames ++ [Service.Stop])))
  = Service.to_worker (Service.effects s)
    ++ map RecordMsg frames ++ [ExportWavMsg Service.mimeType].
Proof.
  revert s. induction frames as [|f frames IH]; intros s [stack Hs].
  - cbn. by rewrite (stopRecording_spec s stack).
  - cbn [map app foldl]. rewrite IH by (by exists stack).
    cbn. by rewrite <- app_assoc.
Qed.

(** C5, as stated, fails: when [stopRecording] is called twice before the
    worker answers, the callback of the second call is given the blob
    exported for the first call, and the callback of the first call the
    blob exported for the second. *)
Lemma overlapping_stops_cross_talk :
  ∃ r0 r1 : Reply,
    overlapping_replies = [r0; r1]
    ∧ Service.invoked (Service.effects overlapping_done)
      = [(1%nat, reply_data r0); (0%nat, reply_data r1)]
    ∧ reply_data r0 ≠ reply_data r1.
Proof.
  eexists _, _. split; [vm_compute; reflexivity|].
  split; [vm_compute; reflexivity|].
  intros H. apply (f_equal (fun b => length (blob_parts b))) in H.
  vm_compute in H. discriminate.
Qed.

(** C5, amended. A reply is paired with the pending callbacks by its command
    name alone: it is given to the callback registered last, which is
    removed; no callback is ever run twice; and a request made while no
    other is pending is given the blob exported for it. *)
Theorem replies_go_to_last_callback :
  (∀ (s : Service.RecordService) (stack : list nat) (p : nat) (blob : Blob),
      Service.callbacks s !! "exportWav" = Some (stack ++ [p]) ->
      let s' := snd (Service.onmessage
                       {| reply_command := "exportWav"; reply_data := blob |} s) in
      Service.invoked (Service.effects s')
      = Service.invoked (Service.effects s) ++ [(p, blob)]
      ∧ Service.pending s' = stack
      ∧ Service.audioBlob s' = Some blob)
  ∧ (∀ actions : list Service.action,
        NoDup (map fst (Service.invoked (Service.effects (Service.after actions)))))
  ∧ (∀ (s : Service.RecordService) (w : Worker.WorkerScope),
        Service.callbacks s !! "exportWav" = Some [] ->
        Worker.accumulator_ok w ->
        let p := fst (Service.stopRecording s) in
        let s1 := snd (Service.stopRecording s) in
        Service.to_worker (Service.effects s1)
        = Service.to_worker (Service.effects s) ++ [ExportWavMsg Service.mimeType]
        ∧ ∃ reply : Reply,
            Worker.posted (snd (Worker.onmessage (ExportWavMsg Service.mimeType) w))
            = Worker.posted w ++ [reply]
            ∧ Service.invoked (Service.effects (snd (Service.onmessage reply s1)))
              = Service.invoked (Service.effects s) ++ [(p, reply_data reply)]
            ∧ Service.pending (snd (Service.onmessage reply s1)) = []).
Proof.
  split; [|split].
  - intros s stack p blob H s'.
    destruct (onmessage_pops s stack p blob H) as (Hi & Hc & Hb & _). fold s' in Hi, Hc, Hb.
    split; [exact Hi|]. split; [|exact Hb].
    unfold Service.pending. by rewrite Hc, lookup_insert_eq.
  - intros actions. destruct (after_callbacks_ok actions) as (stack & _ & Hnd & _).
    rewrite NoDup_app in Hnd. tauto.
  - intros s w Hs Hw p s1. unfold p, s1. rewrite (stopRecording_spec s []) by done.
    cbn [fst snd]. split; [reflexivity|].
    change (Worker.onmessage (ExportWavMsg Service.mimeType) w)
      with (Worker.exportWav Service.mimeType w).
    rewrite exportWav_ok by done. eexists. split; [reflexivity|].
    cbn [reply_data].
    match goal with
    | |- context [Service.onmessage {| reply_command := _; reply_data := ?b |} ?s1] =>
        destruct (onmessage_pops s1 [] (Service.promises (Service.effects s)) b)
          as (Hi & Hc & _)
    end.
    { cbn. by rewrite lookup_insert_eq. }
    split; [exact Hi|]. unfold Service.pending. by rewrite Hc, lookup_insert_eq.
Qed.

Lemma replies_go_to_last_callback_witness :
  Service.pending (snd (Service.stopRecording Service.create)) = [] ++ [0%nat]
  ∧ ∀ blob : Blob,
      Service.audioBlob
        (snd (Service.onmessage {| reply_command := "exportWav"; reply_data := blob |}
                (snd (Service.stopRecording Service.create))))
      = Some blob.
Proof.
  split; [reflexivity|]. intros blob.
  exact (proj2 (proj2 (proj1 replies_go_to_last_callback
                         (snd (Service.stopRecording Service.create)) [] 0%nat blob
                         eq_refl))).
Defined.

(** C6. After every command [recLength] is the number of samples of the
    frames held and is not negative; [record] appends its frame and adds
    the frame's length to [recLength]; [clear] leaves no frame and a
    [recLength] of 0. *)
Theorem accumulator_invariant :
  (∀ events : list Message,
      Worker.accumulator_ok (Worker.run events Worker.initial))
  ∧ (∀ (w : Worker.WorkerScope) (event : Message),
        Worker.accumulator_ok w ->
        Worker.accumulator_ok (snd (Worker.onmessage event w)))
  ∧ (∀ (w : Worker.WorkerScope) (frame : Frame),
        Worker.recBuffers (Worker.record frame w) = Worker.recBuffers w ++ [frame]
        ∧ Worker.recLength (Worker.record frame w)
          = Worker.recLength w + Z.of_nat (length frame))
  ∧ (∀ w : Worker.WorkerScope,
        Worker.recBuffers (Worker.clear w) = []
        ∧ Worker.recLength (Worker.clear w) = 0).
Proof.
  split; [|split; [|split]].
  - intros events. apply run_preserves_accumulator. split; [reflexivity|].
    cbn. lia.
  - intros w event. apply onmessage_preserves_accumulator.
  - intros w frame. split; reflexivity.
  - intros w. split; reflexivity.
Qed.

Lemma accumulator_invariant_witness :
  Worker.accumulator_ok Worker.initial
  ∧ Worker.accumulator_ok (snd (Worker.onmessage (RecordMsg [half]) Worker.initial)).
Proof.
  assert (Worker.accumulator_ok Worker.initial) as H0.
  { split; [reflexivity|]. simpl. lia. }
  split; [exact H0|].
  exact (proj1 (proj2 accumulator_invariant) Worker.initial (RecordMsg [half]) H0).
Defined.

(** C7, as stated, fails: the samples 0.5 and -0.5 are stored as 16383 and
    -16383, bytes FF 3F and 01 C0, not as 00 40 and 00 C0. *)
Lemma two_frames_not_as_listed :
  ∃ view : DataView,
    two_frames_blobs = [view] ∧ drop 44 view ≠ two_frames_listed.
Proof.
  eexists. split; [vm_compute; reflexivity|]. vm_compute. discriminate.
Qed.

(** C7, amended. For these two frames at 8000 Hz on one channel the blob
    has 52 bytes, a data size of 8, and the sample bytes
    FF 3F, 01 C0, FF 7F, 01 80 (16383, -16383, 32767, -32767). *)
Theorem two_frames_encoding :
  ∃ view : DataView,
    two_frames_blobs = [view]
    ∧ byteLength view = 52
    ∧ getUint32_le view 40 = 8
    ∧ drop 44 view = [0xFF; 0x3F; 0x01; 0xC0; 0xFF; 0x7F; 0x01; 0x80]
    ∧ map pcm16 [half; minus_half; of_Z 1; of_Z (-1)] = [16383; -16383; 32767; -32767].
Proof.
  eexists. split; [vm_compute; reflexivity|]. repeat split; reflexivity.
Qed.

(** C8. Handling an export command changes neither the frames held nor
    [recLength] (nor the sample rate and channel count). *)
Theorem exportWav_keeps_accumulator (w : Worker.WorkerScope) (event : Message) :
  command event = "exportWav" ->
  let w' := snd (Worker.onmessage event w) in
  Worker.recBuffers w' = Worker.recBuffers w
  ∧ Worker.recLength w' = Worker.recLength w
  ∧ Worker.sampleRate w' = Worker.sampleRate w
  ∧ Worker.numChannels w' = Worker.numChannels w.
Proof.
  intros Hcmd. unfold Worker.onmessage. rewrite Hcmd. cbn.
  unfold Worker.exportWav. by destruct (encodeWav _ _ _ _).
Qed.

Lemma exportWav_keeps_accumulator_witness :
  Worker.recBuffers
    (snd (Worker.onmessage (ExportWavMsg "audio/wav")
            (Worker.run [RecordMsg [half]] Worker.initial)))
  = [[half]].
Proof.
  exact (proj1 (exportWav_keeps_accumulator
                  (Worker.run [RecordMsg [half]] Worker.initial)
                  (ExportWavMsg "audio/wav") eq_refl)).
Defined.

(** C9, as stated, fails: [stopRecording] on the service as its constructor
    leaves it, with nothing being recorded, posts an export command, pushes
    a callback and rejects nothing. *)
Lemma stop_while_idle_posts_export :
  Service.to_worker (Service.effects (snd (Service.stopRecording Service.create)))
  = [ExportWavMsg "audio/wav"]
  ∧ Service.rejected (Service.effects (snd (Service.stopRecording Service.create))) = []
  ∧ Service.pending (snd (Service.stopRecording Service.create))
    = [fst (Service.stopRecording Service.create)].
Proof. repeat split; reflexivity. Qed.

(** What follows on a service that never recorded: the callback persists
    the blob and then throws on the missing audio context, so that the
    promise is never resolved. *)
Lemma stop_on_fresh_service_never_resolves (blob : Blob) :
  let r := Service.onmessage {| reply_command := "exportWav"; reply_data := blob |}
             (snd (Service.stopRecording Service.create)) in
  fst r = Throw TypeError
  ∧ Service.audioBlob (snd r) = Some blob
  ∧ Service.resolved (Service.effects (snd r)) = []
  ∧ Service.closing (Service.effects (snd r)) = [].
Proof. repeat split; reflexivity. Qed.

(** C9, amended. [stopRecording] has no guard on the state of the service:
    in every state it signals no error, pushes one callback and posts one
    export command with the mime type; the call itself leaves the audio
    context, the audio nodes and the blob as they are. *)
Theorem stopRecording_has_no_guard (s : Service.RecordService) (stack : list nat) :
  Service.callbacks s !! "exportWav" = Some stack ->
  let p := fst (Service.stopRecording s) in
  let s' := snd (Service.stopRecording s) in
  Service.to_worker (Service.effects s')
  = Service.to_worker (Service.effects s) ++ [ExportWavMsg Service.mimeType]
  ∧ Service.rejected (Service.effects s') = Service.rejected (Service.effects s)
  ∧ Service.pending s' = stack ++ [p]
  ∧ Service.audioContext s' = Service.audioContext s
  ∧ Service.resourceNode s' = Service.resourceNode s
  ∧ Service.jsNode s' = Service.jsNode s
  ∧ Service.audioBlob s' = Service.audioBlob s.
Proof.
  intros Hs p s'. unfold p, s'. rewrite (stopRecording_spec s stack Hs).
  cbn [fst snd]. repeat split.
  unfold Service.pending. cbn. by rewrite lookup_insert_eq.
Qed.

Lemma stopRecording_has_no_guard_witness :
  Service.to_worker (Service.effects (snd (Service.stopRecording Service.create)))
  = [] ++ [ExportWavMsg Service.mimeType].
Proof.
  exact (proj1 (stopRecording_has_no_guard Service.create [] eq_refl)).
Defined.

(** C10. A message whose command is none of init, record, exportWav and
    clear leaves every variable of the worker as it is, and nothing is
    posted. *)
Theorem unknown_command_ignored (w : Worker.WorkerScope) (event : Message) :
  command event ≠ "init" -> command event ≠ "record" ->
  command event ≠ "exportWav" -> command event ≠ "clear" ->
  Worker.onmessage event w = (Normal (), w).
Proof.
  intros Hi Hr He Hc. unfold Worker.onmessage.
  by rewrite (proj2 (String.eqb_neq _ _) Hi), (proj2 (String.eqb_neq _ _) Hr),
       (proj2 (String.eqb_neq _ _) He), (proj2 (String.eqb_neq _ _) Hc).
Qed.

Lemma unknown_command_ignored_witness :
  Worker.onmessage pause_message Worker.initial = (Normal (), Worker.initial).
Proof.
  apply (unknown_command_ignored Worker.initial pause_message);
    vm_compute; discriminate.
Defined.

(** * Further properties of the code *)

(** ** The encoder on any [recLength] *)

Lemma SetViewValue_Normal_length (view v' : DataView) (off : Z) (raw : list Z) :
  SetViewValue view off raw = Normal v' -> length v' = length view.
Proof.
  unfold SetViewValue, byteLength.
  destruct (Z.ltb_spec off 0); [discriminate|].
  destruct (Z.ltb_spec (Z.of_nat (length view)) (off + Z.of_nat (length raw)));
    [discriminate|].
  cbn [orb]. intros [= <-].
  rewrite !length_app, length_take, length_drop. lia.
Qed.

Lemma SetViewValue_Throw (view : DataView) (off : Z) (raw : list Z) (e : Error) :
  SetViewValue view off raw = Throw e -> e = RangeError.
Proof.
  unfold SetViewValue. destruct (_ || _); [|discriminate]. by intros [= <-].
Qed.

Lemma SetViewValue_short (view : DataView) (off : Z) (raw : list Z) :
  byteLength view < off + Z.of_nat (length raw) ->
  SetViewValue view off raw = Throw RangeError.
Proof.
  intros H. unfold SetViewValue.
  destruct (Z.ltb_spec (byteLength view) (off + Z.of_nat (length raw))); [|lia].
  by rewrite orb_true_r.
Qed.

Lemma writeString_loop_Normal_length (s : string) (view v' : DataView) (offset i : Z) :
  writeString_loop view offset s i = Normal v' -> length v' = length view.
Proof.
  revert view i. induction s as [|c s IH]; intros view i; cbn [writeString_loop].
  - by intros [= <-].
  - unfold setUint8. destruct (SetViewValue view _ _) as [v|] eqn:Hv; [|discriminate].
    cbn. intros H. rewrite (IH _ _ H). by apply SetViewValue_Normal_length in Hv.
Qed.

Lemma writeString_loop_Throw (s : string) (view : DataView) (offset i : Z) (e : Error) :
  writeString_loop view offset s i = Throw e -> e = RangeError.
Proof.
  revert view i. induction s as [|c s IH]; intros view i; cbn [writeString_loop].
  - discriminate.
  - unfold setUint8. destruct (SetViewValue view _ _) as [v|] eqn:Hv; cbn.
    + apply IH.
    + intros [= <-]. by apply SetViewValue_Throw in Hv.
Qed.

(** On a view of fewer than 44 bytes the header cannot be written. *)
Lemma write_header_short sr nc n (view : DataView) :
  (length view < 44)%nat -> write_header sr nc n view = Throw RangeError.
Proof.
  intros Hlen. unfold write_header, writeString, setUint32, setUint16.
  repeat
    lazymatch goal with
    | |- (_ ← ?c; _) = _ =>
        let v := fresh "v" in
        let Hv := fresh "Hv" in
        destruct c as [v|] eqn:Hv; cbn [mbind completion_bind];
        [ first [ apply writeString_loop_Normal_length in Hv
                | apply SetViewValue_Normal_length in Hv ];
          rewrite <- Hv in Hlen; clear Hv
        | first [ apply writeString_loop_Throw in Hv
                | apply SetViewValue_Throw in Hv ];
          by rewrite Hv ]
    end.
  apply SetViewValue_short. unfold byteLength, NumericToRawBytes.
  rewrite length_RawBytes. lia.
Qed.

Lemma total_samples_concat (frames : list Frame) :
  Worker.total_samples frames = Z.of_nat (length (concat frames)).
Proof.
  induction frames as [|f frames IH]; [done|].
  rewrite total_samples_cons, IH. cbn [concat]. rewrite length_app. lia.
Qed.

(** One frame written where [k] samples still fit. *)
Lemma buffersTo16BitPCM_frame_outcome (frame : Frame) (pre : DataView) (k : nat) :
  buffersTo16BitPCM_frame (pre ++ replicate (2 * k) 0) (Z.of_nat (length pre)) frame
  = if decide (length frame ≤ k)%nat
    then Normal (pre ++ frame_bytes frame ++ replicate (2 * (k - length frame)) 0,
                 Z.of_nat (length pre) + 2 * Z.of_nat (length frame))
    else Throw RangeError.
Proof.
  revert pre k. induction frame as [|x frame IH]; intros pre k.
  - cbn [buffersTo16BitPCM_frame length]. rewrite decide_True by lia.
    rewrite Nat.sub_0_r. do 2 f_equal. lia.
  - cbn [buffersTo16BitPCM_frame length]. unfold setInt16, NumericToRawBytes.
    destruct k as [|k].
    + rewrite SetViewValue_short, decide_False; [done|lia|].
      unfold byteLength. rewrite length_app, length_RawBytes. cbn. lia.
    + replace (2 * S k)%nat with (2 + 2 * k)%nat by lia.
      rewrite replicate_add.
      rewrite SetViewValue_middle by (by rewrite length_RawBytes).
      cbn [mbind completion_bind].
      fold (pcm16 x). fold (int16_le (pcm16 x)).
      rewrite (app_assoc pre).
      replace (Z.of_nat (length pre) + 2)
        with (Z.of_nat (length (pre ++ int16_le (pcm16 x))))
        by (rewrite length_app; unfold int16_le; rewrite length_RawBytes; lia).
      rewrite IH. destruct (decide (length frame ≤ k)%nat).
      * rewrite decide_True by lia. f_equal. f_equal.
        -- unfold frame_bytes. cbn [map concat]. by rewrite <- !app_assoc.
        -- rewrite length_app. unfold int16_le. rewrite length_RawBytes. lia.
      * by rewrite decide_False by lia.
Qed.

Lemma buffersTo16BitPCM_outcome (frames : list Frame) (pre : DataView) (k : nat) :
  buffersTo16BitPCM (pre ++ replicate (2 * k) 0) (Z.of_nat (length pre)) frames
  = if decide (length (concat frames) ≤ k)%nat
    then Normal (pre ++ pcm_bytes frames
                 ++ replicate (2 * (k - length (concat frames))) 0)
    else Throw RangeError.
Proof.
  revert pre k. induction frames as [|f frames IH]; intros pre k.
  - cbn [buffersTo16BitPCM concat length]. rewrite decide_True by lia.
    by rewrite Nat.sub_0_r.
  - cbn [buffersTo16BitPCM concat]. rewrite buffersTo16BitPCM_frame_outcome.
    rewrite length_app.
    destruct (decide (length f ≤ k)%nat) as [Hf|Hf]; cbn [mbind completion_bind].
    + rewrite (app_assoc pre).
      replace (Z.of_nat (length pre) + 2 * Z.of_nat (length f))
        with (Z.of_nat (length (pre ++ frame_bytes f)))
        by (rewrite length_app, length_frame_bytes; lia).
      rewrite IH. destruct (decide (length (concat frames) ≤ k - length f)%nat).
      * rewrite decide_True by lia. unfold pcm_bytes. cbn [map concat].
        rewrite <- !app_assoc.
        by replace (k - length f - length (concat frames))%nat
          with (k - (length f + length (concat frames)))%nat by lia.
      * by rewrite decide_False by lia.
    + by rewrite decide_False by lia.
Qed.

(** X1. [encodeWav] on a [recLength] whose buffer of [44 + recLength * 2]
    bytes is not longer than [new ArrayBuffer] takes: it throws a
    [RangeError] when [recLength] is negative or smaller than the number of
    samples of the frames; otherwise it returns the header, the samples, and
    zeros up to [recLength] samples. *)
Theorem encodeWav_outcome sr nc (frames : list Frame) (n : Z) :
  44 + n * 2 <= max_byte_length ->
  encodeWav sr nc frames n
  = if (n <? 0) || (n <? Worker.total_samples frames)
    then Throw RangeError
    else Normal (wav_header sr nc n ++ pcm_bytes frames
                 ++ replicate (Z.to_nat ((n - Worker.total_samples frames) * 2)) 0).
Proof.
  intros _.
  rewrite encodeWav_split, total_samples_concat. unfold new_ArrayBuffer.
  destruct (Z.ltb_spec n 0) as [Hneg|Hnn]; cbn [orb].
  - destruct (Z.ltb_spec (44 + n * 2) 0); [done|].
    cbn [mbind completion_bind]. rewrite write_header_short; [done|].
    rewrite length_replicate. lia.
  - destruct (Z.ltb_spec (44 + n * 2) 0); [lia|].
    cbn [mbind completion_bind].
    replace (Z.to_nat (44 + n * 2)) with (44 + 2 * Z.to_nat n)%nat by lia.
    rewrite replicate_add.
    rewrite (write_header_app _ _ _ _ _ _ (write_header_zeros sr nc _)).
    cbn [mbind completion_bind].
    change 44 with (Z.of_nat (length (wav_header sr nc n))).
    rewrite buffersTo16BitPCM_outcome.
    destruct (Z.ltb_spec n (Z.of_nat (length (concat frames)))).
    + by rewrite decide_False by lia.
    + rewrite decide_True by lia. do 4 f_equal. lia.
Qed.

Lemma encodeWav_outcome_witness :
  44 + 2 * 2 <= max_byte_length
  ∧ encodeWav Undefined Undefined [[half]] 2
    = Normal (wav_header Undefined Undefined 2 ++ pcm_bytes [[half]] ++ [0; 0]).
Proof.
  assert (44 + 2 * 2 <= max_byte_length) as H by (vm_compute; discriminate).
  split; [exact H|].
  exact (encodeWav_outcome Undefined Undefined [[half]] 2 H).
Defined.

(** ** The header, field by field *)

Lemma ToUint_small (w z : Z) : 0 <= z < 2 ^ w -> ToUint w (of_Z z) = z.
Proof. intros H. rewrite ToUint_of_Z. by apply Z.mod_small. Qed.

(** Reads the field of the goal out of the header and decodes it. *)
Ltac read_field u :=
  unfold wav_header; generalize u; intros ?; reflexivity.

(** X2. The other fields of the header, read back from the bytes that
    [encodeWav] returns for an integer sample rate and channel count: the
    four tags, the chunk size 36 + 2 * recLength, the format chunk length
    16, the sample format 1, the channel count, the sample rate, the block
    align (twice the channel count) and 16 bits per sample, each reduced
    modulo the width of its field. *)
Theorem header_fields (sr nc : Z) (frames : list Frame) :
  ∃ view : DataView,
    encodeWav (Num (of_Z sr)) (Num (of_Z nc)) frames (Worker.total_samples frames)
    = Normal view
    ∧ getTag view 0 4 = ascii_bytes "RIFF"
    ∧ getUint32_le view 4 = (36 + Worker.total_samples frames * 2) mod 2 ^ 32
    ∧ getTag view 8 4 = ascii_bytes "WAVE"
    ∧ getTag view 12 4 = ascii_bytes "fmt "
    ∧ getUint32_le view 16 = 16
    ∧ getUint16_le view 20 = 1
    ∧ getUint16_le view 22 = nc mod 2 ^ 16
    ∧ getUint32_le view 24 = sr mod 2 ^ 32
    ∧ getUint16_le view 32 = (nc * 2) mod 2 ^ 16
    ∧ getUint16_le view 34 = 16
    ∧ getTag view 36 4 = ascii_bytes "data".
Proof.
  eexists. split; [apply encodeWav_spec|].
  set (n := Worker.total_samples frames). set (data := pcm_bytes frames).
  repeat split.
  - transitivity (le_decode (RawBytes 4 (ToUint 32 (of_Z (36 + n * 2))))).
    + read_field (ToUint 32 (of_Z (36 + n * 2))).
    + rewrite le_decode_RawBytes, ToUint_of_Z.
      change (256 ^ Z.of_nat 4) with (2 ^ 32). by rewrite Z.mod_mod.
  - transitivity (le_decode (RawBytes 2 (ToUint 16 (of_Z nc)))).
    + unfold wav_header, ToNumber. generalize (ToUint 16 (of_Z nc)). intros u.
      reflexivity.
    + rewrite le_decode_RawBytes, ToUint_of_Z.
      change (256 ^ Z.of_nat 2) with (2 ^ 16). by rewrite Z.mod_mod.
  - transitivity (le_decode (RawBytes 4 (ToUint 32 (of_Z sr)))).
    + unfold wav_header, ToNumber. generalize (ToUint 32 (of_Z sr)). intros u.
      reflexivity.
    + rewrite le_decode_RawBytes, ToUint_of_Z.
      change (256 ^ Z.of_nat 4) with (2 ^ 32). by rewrite Z.mod_mod.
  - transitivity (le_decode (RawBytes 2 (ToUint 16 (of_Z (nc * 2))))).
    + unfold wav_header, ToNumber.
      change (Number_mul (of_Z nc) (of_Z 2)) with (of_Z (nc * 2)).
      generalize (ToUint 16 (of_Z (nc * 2))). intros u. reflexivity.
    + rewrite le_decode_RawBytes, ToUint_of_Z.
      change (256 ^ Z.of_nat 2) with (2 ^ 16). by rewrite Z.mod_mod.
Qed.

(** Records followed by an export, from any scope that satisfies the
    accumulator invariant. *)
Lemma run_records_export (w : Worker.WorkerScope) (frames : list Frame) (mime : string) :
  Worker.accumulator_ok w ->
  Worker.posted (Worker.run (map RecordMsg frames ++ [ExportWavMsg mime]) w)
  = Worker.posted w
    ++ [ {| reply_command := "exportWav";
            reply_data :=
              {| blob_parts :=
                   wav_header (Worker.sampleRate w) (Worker.numChannels w)
                     (Worker.total_samples (Worker.recBuffers w ++ frames))
                   ++ pcm_bytes (Worker.recBuffers w ++ frames);
                 blob_type := Blob_type mime |} |} ].
Proof.
  intros Hw. rewrite run_app.
  destruct (run_records frames w) as (Hb & Hl & Hs & Hn & Hp).
  pose proof (run_preserves_accumulator (map RecordMsg frames) w Hw) as Hok.
  set (w1 := Worker.run (map RecordMsg frames) w) in *. cbn.
  change (Worker.onmessage (ExportWavMsg mime) w1) with (Worker.exportWav mime w1).
  rewrite exportWav_ok by done. cbn. rewrite Hp, Hs, Hn, Hb.
  destruct Hok as [Hsum _]. by rewrite Hsum, Hb.
Qed.

Lemma accumulator_ok_initial : Worker.accumulator_ok Worker.initial.
Proof. split; [reflexivity|]. cbn. lia. Qed.

(** X3. As long as the worker has received no [init] command, the channel
    count, the sample rate, the byte rate and the block align of an
    exported header are all 0. *)
Theorem header_without_init (frames : list Frame) (mime : string) :
  ∃ view : DataView,
    blobs_posted (Worker.run (map RecordMsg frames ++ [ExportWavMsg mime]) Worker.initial)
    = [view]
    ∧ getUint16_le view 22 = 0
    ∧ getUint32_le view 24 = 0
    ∧ getUint32_le view 28 = 0
    ∧ getUint16_le view 32 = 0.
Proof.
  eexists. unfold blobs_posted.
  rewrite run_records_export by apply accumulator_ok_initial.
  split; [reflexivity|]. repeat split; reflexivity.
Qed.

(** ** Reading the samples back *)

Lemma ToInt16_range (x : Number) : - 2 ^ 15 <= ToInt16 x < 2 ^ 15.
Proof.
  unfold ToInt16. set (u := ToUint 16 x).
  assert (0 <= u < 2 ^ 16) as Hu.
  { unfold u, ToUint. destruct x; [done|done|]. apply Z.mod_pos_bound. done. }
  change (2 ^ 15) with 32768. change (2 ^ 16) with 65536 in *.
  destruct (Z.leb_spec 32768 u); lia.
Qed.

Lemma getInt16_le_int16_le (z : Z) (pre rest : list Z) :
  - 2 ^ 15 <= z < 2 ^ 15 ->
  getInt16_le (pre ++ int16_le z ++ rest) (length pre) = z.
Proof.
  intros Hz. unfold getInt16_le, getUint16_le.
  rewrite drop_app_length.
  replace (take 2 (int16_le z ++ rest)) with (RawBytes 2 (z mod 2 ^ 16))
    by reflexivity.
  rewrite le_decode_RawBytes. change (256 ^ Z.of_nat 2) with (2 ^ 16).
  rewrite Z.mod_mod by done. by apply int16_wrap.
Qed.

Lemma pcm_bytes_concat (frames : list Frame) :
  pcm_bytes frames = concat (map (fun x => int16_le (pcm16 x)) (concat frames)).
Proof.
  unfold pcm_bytes. induction frames as [|f frames IH]; [done|].
  cbn [map concat]. by rewrite map_app, concat_app, IH.
Qed.

(** The sample of rank [j] occupies the bytes [2 * j] and [2 * j + 1]. *)
Lemma sample_bytes_split (samples : list Number) (j : nat) (x : Number) :
  samples !! j = Some x ->
  ∃ before after : list Z,
    concat (map (fun x => int16_le (pcm16 x)) samples)
    = before ++ int16_le (pcm16 x) ++ after
    ∧ length before = (2 * j)%nat.
Proof.
  revert j. induction samples as [|y samples IH]; intros j Hj; [done|].
  destruct j as [|j].
  - injection Hj as ->. by exists [], (concat (map (fun x => int16_le (pcm16 x)) samples)).
  - destruct (IH j Hj) as (before & after & Heq & Hlen).
    exists (int16_le (pcm16 y) ++ before), after. cbn [map concat].
    rewrite Heq, <- app_assoc. split; [done|].
    rewrite length_app, Hlen. unfold int16_le. rewrite length_RawBytes. lia.
Qed.

(** X4. Decoding: in the bytes that [encodeWav] returns, the signed 16-bit
    little-endian value at offset 44 + 2 * j is the value the encoder
    computes for the sample of rank [j], counting through the frames in
    order. *)
Theorem sample_read_back sr nc (frames : list Frame) (j : nat) (x : Number) :
  concat frames !! j = Some x ->
  ∃ view : DataView,
    encodeWav sr nc frames (Worker.total_samples frames) = Normal view
    ∧ getInt16_le view (44 + 2 * j) = pcm16 x.
Proof.
  intros Hj. eexists. split; [apply encodeWav_spec|].
  rewrite pcm_bytes_concat.
  destruct (sample_bytes_split _ _ _ Hj) as (before & after & -> & Hlen).
  rewrite app_assoc.
  replace (44 + 2 * j)%nat
    with (length (wav_header sr nc (Worker.total_samples frames) ++ before))
    by (rewrite length_app, length_wav_header; lia).
  apply getInt16_le_int16_le, ToInt16_range.
Qed.

Lemma sample_read_back_witness :
  ∃ view : DataView,
    encodeWav Undefined Undefined [[half]; [minus_half]] 2 = Normal view
    ∧ getInt16_le view 46 = -16383.
Proof.
  exact (sample_read_back Undefined Undefined [[half]; [minus_half]] 1 minus_half
           eq_refl).
Defined.

(** ** The sample conversion as a function *)

Lemma dyadic_Q_opp (m e : Z) :
  Qnum (dyadic_Q (- m, e)) = - Qnum (dyadic_Q (m, e))
  ∧ Qden (dyadic_Q (- m, e)) = Qden (dyadic_Q (m, e)).
Proof.
  unfold dyadic_Q. destruct (0 <=? e); cbn; split; try done. lia.
Qed.

(** X5. The conversion is odd: the opposite sample is stored as the
    opposite value ([NaN] as 0 either way). *)
Theorem pcm16_odd (x : Number) : pcm16 (Number_neg x) = - pcm16 x.
Proof.
  destruct x as [|[]|m e]; [reflexivity..|].
  cbn [Number_neg]. rewrite !pcm16_Finite, !spec_pcm16_cases.
  destruct (dyadic_Q_opp m e) as [-> ->].
  set (n := Qnum (dyadic_Q (m, e))). set (d := Zpos (Qden (dyadic_Q (m, e)))).
  assert (0 < d) by (unfold d; lia).
  destruct (Z.leb_spec (- n) (- d)), (Z.leb_spec d (- n)),
    (Z.leb_spec n (- d)), (Z.leb_spec d n); try lia.
  rewrite Z.mul_opp_l. apply Z.quot_opp_l. lia.
Qed.

(** Truncation does not reverse the order of two fractions. *)
Lemma quot_fraction_mono (a b : Z) (d1 d2 : positive) :
  a * Zpos d2 <= b * Zpos d1 -> Z.quot a (Zpos d1) <= Z.quot b (Zpos d2).
Proof.
  intros H.
  rewrite <- (Z.quot_mul_cancel_r a (Zpos d1) (Zpos d2)) by lia.
  rewrite <- (Z.quot_mul_cancel_r b (Zpos d2) (Zpos d1)) by lia.
  rewrite (Z.mul_comm (Zpos d2) (Zpos d1)).
  apply Z.quot_le_mono; lia.
Qed.

Lemma spec_pcm16_mono (q1 q2 : Q) :
  (q1 <= q2)%Q -> spec_pcm16 q1 <= spec_pcm16 q2.
Proof.
  intros Hle. pose proof (spec_pcm16_range q1) as Hr1.
  pose proof (spec_pcm16_range q2) as Hr2. revert Hr1 Hr2.
  rewrite !spec_pcm16_cases. unfold Qle in Hle.
  destruct q1 as [n1 d1], q2 as [n2 d2]. cbn [Qnum Qden] in *.
  destruct (Z.leb_spec n1 (- Zpos d1)); [lia|].
  destruct (Z.leb_spec (Zpos d1) n1).
  - destruct (Z.leb_spec n2 (- Zpos d2)); [nia|].
    destruct (Z.leb_spec (Zpos d2) n2); [lia|nia].
  - destruct (Z.leb_spec n2 (- Zpos d2)); [nia|].
    destruct (Z.leb_spec (Zpos d2) n2); [lia|].
    intros _ _. apply quot_fraction_mono. nia.
Qed.

(** X6. The conversion is monotone and saturates: a larger sample is never
    stored as a smaller value, a sample of 1 or more is stored as 32767,
    and a sample of -1 or less as -32767. *)
Theorem pcm16_monotone_saturating (m1 e1 m2 e2 : Z) :
  (dyadic_Q (m1, e1) <= dyadic_Q (m2, e2))%Q ->
  pcm16 (Finite m1 e1) <= pcm16 (Finite m2 e2)
  ∧ ((1 <= dyadic_Q (m1, e1))%Q -> pcm16 (Finite m2 e2) = 32767)
  ∧ ((dyadic_Q (m2, e2) <= -1)%Q -> pcm16 (Finite m1 e1) = -32767).
Proof.
  intros Hle. rewrite !pcm16_Finite. split; [by apply spec_pcm16_mono|].
  rewrite !spec_pcm16_cases. unfold Qle in *.
  destruct (dyadic_Q (m1, e1)) as [n1 d1], (dyadic_Q (m2, e2)) as [n2 d2].
  cbn [Qnum Qden] in *. split; intros H.
  - destruct (Z.leb_spec n2 (- Zpos d2)); [nia|].
    destruct (Z.leb_spec (Zpos d2) n2); [done|nia].
  - destruct (Z.leb_spec n1 (- Zpos d1)); [done|nia].
Qed.

Lemma pcm16_monotone_saturating_witness :
  pcm16 (Finite 1 (-1)) <= pcm16 (Finite 3 0).
Proof.
  apply (pcm16_monotone_saturating 1 (-1) 3 0). unfold Qle. simpl. lia.
Defined.

(** ** [writeString] *)

Lemma ToUint8_charCode (c : ascii) : ToUint 8 (charCode c) = Z.of_nat (nat_of_ascii c).
Proof.
  unfold charCode. apply ToUint_small.
  pose proof (nat_ascii_bounded c). change (2 ^ 8) with 256. lia.
Qed.

Lemma SetViewValue_eq (view : DataView) (off : Z) (raw : list Z) :
  SetViewValue view off raw
  = if (off <? 0) || (byteLength view <? off + Z.of_nat (length raw))
    then Throw RangeError
    else Normal (take (Z.to_nat off) view ++ raw
                 ++ drop (Z.to_nat off + length raw) view).
Proof. reflexivity. Qed.

Lemma writeString_loop_outcome (s : string) (view : DataView) (offset i : Z) :
  writeString_loop view offset s i
  = if negb (String.length s =? 0)%nat
       && ((offset + i <? 0)
           || (byteLength view <? offset + i + Z.of_nat (String.length s)))
    then Throw RangeError
    else Normal (take (Z.to_nat (offset + i)) view ++ ascii_bytes s
                 ++ drop (Z.to_nat (offset + i) + String.length s) view).
Proof.
  revert view i. induction s as [|c s IH]; intros view i.
  - cbn. by rewrite Nat.add_0_r, take_drop.
  - cbn [writeString_loop String.length Nat.eqb negb andb]. unfold setUint8.
    rewrite SetViewValue_eq. unfold NumericToRawBytes, byteLength.
    cbn [RawBytes length]. rewrite ToUint8_charCode.
    rewrite (Z.mod_small (Z.of_nat (nat_of_ascii c)) 256)
      by (pose proof (nat_ascii_bounded c); lia).
    destruct (Z.ltb_spec (offset + i) 0) as [Hneg|Hnn]; [done|]. cbn [orb].
    destruct (Z.ltb_spec (Z.of_nat (length view)) (offset + i + Z.of_nat 1))
      as [Hshort|Hfit].
    + destruct (Z.ltb_spec (Z.of_nat (length view))
                  (offset + i + Z.of_nat (S (String.length s)))); [done|lia].
    + cbn [mbind completion_bind]. rewrite IH. unfold byteLength.
      set (k := Z.to_nat (offset + i)).
      replace (Z.to_nat (offset + (i + 1))) with (S k) by lia.
      assert (k < length view)%nat as Hk by lia.
      rewrite !length_app, length_take, length_drop. cbn [length].
      replace (Z.of_nat (k `min` length view + (1 + (length view - (k + 1)))))
        with (Z.of_nat (length view)) by lia.
      destruct (Z.ltb_spec (offset + (i + 1)) 0); [lia|]. cbn [orb].
      replace (offset + (i + 1) + Z.of_nat (String.length s))
        with (offset + i + Z.of_nat (S (String.length s))) by lia.
      assert (take (S k) (take k view ++ [Z.of_nat (nat_of_ascii c)] ++ drop (k + 1) view)
              = take k view ++ [Z.of_nat (nat_of_ascii c)]) as Htake.
      { rewrite app_assoc. apply take_app_length'.
        rewrite length_app, length_take. cbn. lia. }
      assert (∀ j : nat,
                 drop (S k + j) (take k view ++ [Z.of_nat (nat_of_ascii c)]
                                 ++ drop (k + 1) view)
                 = drop (k + S j) view) as Hdrop.
      { intros j. rewrite app_assoc.
        replace (S k + j)%nat
          with (length (take k view ++ [Z.of_nat (nat_of_ascii c)]) + j)%nat
          by (rewrite length_app, length_take; cbn; lia).
        rewrite drop_app_add, drop_drop. f_equal. lia. }
      destruct (String.length s =? 0)%nat eqn:Hs; cbn [negb andb].
      * apply Nat.eqb_eq in Hs.
        destruct (Z.ltb_spec (Z.of_nat (length view))
                    (offset + i + Z.of_nat (S (String.length s)))); [lia|].
        rewrite Htake, Hdrop. f_equal. unfold ascii_bytes. cbn [list_ascii_of_string map].
        by rewrite <- !app_assoc.
      * destruct (Z.ltb_spec (Z.of_nat (length view))
                    (offset + i + Z.of_nat (S (String.length s)))); [done|].
        rewrite Htake, Hdrop. f_equal. unfold ascii_bytes. cbn [list_ascii_of_string map].
        by rewrite <- !app_assoc.
Qed.

(** X7. [writeString] stores the character codes of the string from
    [offset] on and leaves the other bytes as they are; it throws a
    [RangeError] when the string is not empty and does not fit between
    [offset] and the end of the view (or [offset] is negative); an empty
    string is accepted at any offset. *)
Theorem writeString_outcome (view : DataView) (offset : Z) (s : string) :
  writeString view offset s
  = if negb (String.length s =? 0)%nat
       && ((offset <? 0) || (byteLength view <? offset + Z.of_nat (String.length s)))
    then Throw RangeError
    else Normal (take (Z.to_nat offset) view ++ ascii_bytes s
                 ++ drop (Z.to_nat offset + String.length s) view).
Proof.
  unfold writeString. rewrite writeString_loop_outcome. by rewrite Z.add_0_r.
Qed.

(** ** The worker on any sequence of messages *)

Lemma onmessage_cases (event : Message) (w : Worker.WorkerScope) :
  Worker.onmessage event w
  = if decide (command event = "init") then (Normal (), Worker.init (config event) w)
    else if decide (command event = "record")
         then (Normal (), Worker.record (buffer event) w)
    else if decide (command event = "exportWav") then Worker.exportWav (type event) w
    else if decide (command event = "clear") then (Normal (), Worker.clear w)
    else (Normal (), w).
Proof.
  unfold Worker.onmessage. destruct event as [c cfg b t]. cbn [command].
  destruct (decide (c = "init")) as [->|H1]; [reflexivity|].
  rewrite (proj2 (String.eqb_neq _ _) H1).
  destruct (decide (c = "record")) as [->|H2]; [reflexivity|].
  rewrite (proj2 (String.eqb_neq _ _) H2).
  destruct (decide (c = "exportWav")) as [->|H3]; [reflexivity|].
  rewrite (proj2 (String.eqb_neq _ _) H3).
  destruct (decide (c = "clear")) as [->|H4]; [reflexivity|].
  by rewrite (proj2 (String.eqb_neq _ _) H4).
Qed.

(** What one message adds to the replies, and that its handler returns. *)
Lemma onmessage_posted (event : Message) (w : Worker.WorkerScope) :
  Worker.accumulator_ok w ->
  fst (Worker.onmessage event w) = Normal ()
  ∧ map (fun r => (reply_command r, blob_type (reply_data r)))
        (Worker.posted (snd (Worker.onmessage event w)))
    = map (fun r => (reply_command r, blob_type (reply_data r))) (Worker.posted w)
      ++ (if decide (command event = "exportWav")
          then [("exportWav", Blob_type (type event))] else []).
Proof.
  intros Hw. rewrite onmessage_cases.
  destruct (decide (command event = "init")) as [Hi|Hi].
  { rewrite decide_False by (rewrite Hi; discriminate). cbn. by rewrite app_nil_r. }
  destruct (decide (command event = "record")) as [Hr|Hr].
  { rewrite decide_False by (rewrite Hr; discriminate). cbn. by rewrite app_nil_r. }
  destruct (decide (command event = "exportWav")) as [He|He].
  { rewrite exportWav_ok by done. cbn. by rewrite map_app. }
  destruct (decide (command event = "clear")); cbn; by rewrite app_nil_r.
Qed.

Lemma run_posted (events : list Message) (w : Worker.WorkerScope) :
  Worker.accumulator_ok w ->
  map (fun r => (reply_command r, blob_type (reply_data r)))
      (Worker.posted (Worker.run events w))
  = map (fun r => (reply_command r, blob_type (reply_data r))) (Worker.posted w)
    ++ map (fun event => ("exportWav", Blob_type (type event)))
         (filter (fun event => command event = "exportWav") events).
Proof.
  revert w. induction events as [|event events IH]; intros w Hw.
  - cbn. by rewrite app_nil_r.
  - rewrite run_cons, IH by (by apply onmessage_preserves_accumulator).
    destruct (onmessage_posted event w Hw) as [_ ->].
    rewrite <- app_assoc. f_equal.
    destruct (decide (command event = "exportWav")) as [He|He].
    + by rewrite filter_cons_True.
    + by rewrite filter_cons_False.
Qed.

(** X8. Whatever well-formed messages the worker receives (a message that
    carries the fields its command reads: a config for [init], a frame of
    samples for [record], a string for the type of [exportWav]), no handler
    throws, and the worker posts exactly one reply for each [exportWav]
    command, in the order of these commands: an [exportWav] reply whose blob
    has the type that [new Blob] makes of the type the command asked for,
    which is that type in lower case when all its characters are printable
    ASCII, and the empty string otherwise. *)
Theorem every_export_answered (events : list Message) :
  (∀ event : Message,
      fst (Worker.onmessage event (Worker.run events Worker.initial)) = Normal ())
  ∧ map (fun r => (reply_command r, blob_type (reply_data r)))
        (Worker.posted (Worker.run events Worker.initial))
    = map (fun event => ("exportWav", Blob_type (type event)))
        (filter (fun event => command event = "exportWav") events)
  ∧ Blob_type "Audio/WAV" = "audio/wav"
  ∧ Blob_type "audio/wav" = "audio/wav".
Proof.
  pose proof accumulator_ok_initial as H0. split; [|split; [|split]].
  - intros event. apply onmessage_posted. by apply run_preserves_accumulator.
  - by rewrite run_posted.
  - reflexivity.
  - reflexivity.
Qed.

(** Without a [clear] command the frames only grow. *)
Lemma run_without_clear (events : list Message) (w : Worker.WorkerScope) :
  Forall (fun event => command event ≠ "clear") events ->
  Worker.recBuffers (Worker.run events w)
  = Worker.recBuffers w
    ++ map buffer (filter (fun event => command event = "record") events).
Proof.
  revert w. induction events as [|event events IH]; intros w Hnc.
  - cbn. by rewrite app_nil_r.
  - apply Forall_cons in Hnc as [Hev Hnc]. rewrite run_cons, IH by done.
    rewrite onmessage_cases.
    destruct (decide (command event = "init")) as [Hi|Hi].
    { rewrite filter_cons_False by (rewrite Hi; discriminate). done. }
    destruct (decide (command event = "record")) as [Hr|Hr].
    { rewrite filter_cons_True by done. cbn. by rewrite <- app_assoc. }
    rewrite filter_cons_False by done.
    destruct (decide (command event = "exportWav")) as [He|He].
    { unfold Worker.exportWav. by destruct (encodeWav _ _ _ _). }
    by rewrite decide_False by done.
Qed.

Lemma last_blob_of_export (w : Worker.WorkerScope) (mime : string) :
  Worker.accumulator_ok w ->
  last (blobs_posted (Worker.run [ExportWavMsg mime] w))
  = Some (wav_header (Worker.sampleRate w) (Worker.numChannels w) (Worker.recLength w)
          ++ pcm_bytes (Worker.recBuffers w)).
Proof.
  intros Hw.
  change (Worker.run [ExportWavMsg mime] w) with (snd (Worker.exportWav mime w)).
  rewrite exportWav_ok by done. unfold blobs_posted.
  cbn [snd Worker.posted Worker.postMessage]. rewrite map_app. cbn [map].
  by rewrite last_snoc.
Qed.

(** X9. The frames held after a [clear] command are the buffers of the
    [record] commands received since, in the order received, whatever
    [init], [exportWav] or unknown commands came in between; an export
    then stores exactly their samples after the header. *)
Theorem frames_since_clear (events : list Message) (w : Worker.WorkerScope)
    (mime : string) :
  Worker.accumulator_ok w ->
  Forall (fun event => command event ≠ "clear") events ->
  let frames := map buffer (filter (fun event => command event = "record") events) in
  Worker.recBuffers (Worker.run (ClearMsg :: events) w) = frames
  ∧ ∃ view : DataView,
      last (blobs_posted (Worker.run (ClearMsg :: events ++ [ExportWavMsg mime]) w))
      = Some view
      ∧ drop 44 view = pcm_bytes frames.
Proof.
  intros Hw Hnc frames.
  assert (Worker.recBuffers (Worker.run (ClearMsg :: events) w) = frames) as Hb.
  { rewrite run_cons, run_without_clear by done. reflexivity. }
  split; [exact Hb|].
  assert (Worker.accumulator_ok (Worker.run (ClearMsg :: events) w)) as Hok
    by (by apply run_preserves_accumulator).
  rewrite app_comm_cons, run_app, last_blob_of_export by done.
  eexists. split; [reflexivity|].
  rewrite Hb. by rewrite drop_app_length' by (by rewrite length_wav_header).
Qed.

Lemma frames_since_clear_witness :
  Worker.recBuffers
    (Worker.run [ClearMsg; RecordMsg [half]; ExportWavMsg "audio/wav";
                 pause_message; RecordMsg [minus_half]]
       (Worker.run [RecordMsg [of_Z 1]] Worker.initial))
  = [[half]; [minus_half]].
Proof.
  refine (proj1 (frames_since_clear
                   [RecordMsg [half]; ExportWavMsg "audio/wav"; pause_message;
                    RecordMsg [minus_half]]
                   (Worker.run [RecordMsg [of_Z 1]] Worker.initial) "audio/wav" _ _)).
  - split; [reflexivity|]. simpl. lia.
  - repeat constructor; vm_compute; discriminate.
Defined.

(** X10. After a [clear] command an export is the header alone: 44 bytes,
    with a chunk size of 36 and a data size of 0, whatever was recorded
    before. *)
Theorem clear_then_export (events : list Message) (mime : string) :
  ∃ view : DataView,
    last (blobs_posted
            (Worker.run (events ++ [ClearMsg; ExportWavMsg mime]) Worker.initial))
    = Some view
    ∧ length view = 44%nat
    ∧ getUint32_le view 4 = 36
    ∧ getUint32_le view 40 = 0.
Proof.
  rewrite run_app. set (w := Worker.run events Worker.initial).
  change (Worker.run [ClearMsg; ExportWavMsg mime] w)
    with (Worker.run [ExportWavMsg mime] (Worker.clear w)).
  rewrite last_blob_of_export by (split; [reflexivity|]; cbn; lia).
  eexists. split; [reflexivity|]. cbn [Worker.recBuffers Worker.recLength Worker.clear].
  change (pcm_bytes []) with (@nil Z). rewrite app_nil_r.
  repeat split; reflexivity.
Qed.

(** ** A whole recording *)

(** The frames that arrive only add [record] commands to the queue. *)
Lemma audio_frames_posted (frames : list Frame) ctx src proc rate blob cbs q n res rej inv cl st :
  foldl Service.step
    {| Service.audioContext := ctx; Service.resourceNode := src; Service.jsNode := proc;
       Service.sampleRate := rate; Service.audioBlob := blob; Service.callbacks := cbs;
       Service.effects :=
         {| Service.to_worker := q; Service.promises := n; Service.resolved := res;
            Service.rejected := rej; Service.invoked := inv; Service.closing := cl;
            Service.started := st |} |}
    (map Service.Audio frames)
  = {| Service.audioContext := ctx; Service.resourceNode := src; Service.jsNode := proc;
       Service.sampleRate := rate; Service.audioBlob := blob; Service.callbacks := cbs;
       Service.effects :=
         {| Service.to_worker := q ++ map RecordMsg frames; Service.promises := n;
            Service.resolved := res; Service.rejected := rej; Service.invoked := inv;
            Service.closing := cl; Service.started := st |} |}.
Proof.
  revert q. induction frames as [|f frames IH]; intros q.
  - cbn. by rewrite app_nil_r.
  - cbn [map foldl]. cbn [Service.step]. unfold Service.onaudioprocess, Service.postMessage,
      Service.with_effects. cbn. rewrite IH. by rewrite <- app_assoc.
Qed.

Lemma run_session_commands (w : Worker.WorkerScope) (rate : Number) (frames : list Frame) :
  Worker.posted (Worker.run (session_commands rate frames) w)
  = Worker.posted w ++ [export_reply (wav_blob rate frames)].
Proof.
  unfold session_commands. rewrite run_app.
  change (Worker.run [ClearMsg; InitMsg ?cfg] w)
    with (Worker.init cfg (Worker.clear w)).
  rewrite run_records_export by (split; [reflexivity|]; cbn; lia).
  reflexivity.
Qed.

(** A reply to the pending callbacks of a service whose audio context is
    running. *)
Lemma receive_while_running (blob : Blob) (stack : list nat) (p : nat)
    src proc rate blob0 cbs q n res rej inv cl st :
  cbs !! "exportWav" = Some (stack ++ [p]) ->
  Service.step
    {| Service.audioContext := Some Service.running; Service.resourceNode := src;
       Service.jsNode := proc; Service.sampleRate := rate; Service.audioBlob := blob0;
       Service.callbacks := cbs;
       Service.effects :=
         {| Service.to_worker := q; Service.promises := n; Service.resolved := res;
            Service.rejected := rej; Service.invoked := inv; Service.closing := cl;
            Service.started := st |} |}
    (Service.Receive (export_reply blob))
  = {| Service.audioContext := Some Service.running;
       Service.resourceNode := (fun _ => Service.Disconnected) <$> src;
       Service.jsNode := (fun _ => Service.Disconnected) <$> proc;
       Service.sampleRate := rate; Service.audioBlob := Some blob;
       Service.callbacks := <["exportWav" := stack]> cbs;
       Service.effects :=
         {| Service.to_worker := q; Service.promises := n; Service.resolved := res;
            Service.rejected := rej; Service.invoked := inv ++ [(p, blob)];
            Service.closing := cl ++ [p]; Service.started := st |} |}.
Proof.
  intros H. unfold Service.step, Service.onmessage, export_reply.
  cbn [reply_command reply_data Service.callbacks].
  rewrite H, pop_snoc. unfold Service.export_callback.
  destruct proc, src; reflexivity.
Qed.

(** The service after one recording. *)
Lemma session_service_state (s : Service.RecordService) (rate : Number)
    (frames : list Frame) :
  Service.callbacks s !! "exportWav" = Some [] ->
  foldl Service.step s (session rate frames)
  = {| Service.audioContext := Some Service.running;
       Service.resourceNode := Some Service.Connected;
       Service.jsNode := Some Service.Connected;
       Service.sampleRate := Num rate; Service.audioBlob := None;
       Service.callbacks :=
         <["exportWav" := [Service.promises (Service.effects s)]]> (Service.callbacks s);
       Service.effects :=
         {| Service.to_worker :=
              Service.to_worker (Service.effects s) ++ session_commands rate frames;
            Service.promises := S (Service.promises (Service.effects s));
            Service.resolved := Service.resolved (Service.effects s);
            Service.rejected := Service.rejected (Service.effects s);
            Service.invoked := Service.invoked (Service.effects s);
            Service.closing := Service.closing (Service.effects s);
            Service.started := S (Service.started (Service.effects s)) |} |}.
Proof.
  intros Hcb. unfold session. rewrite !foldl_app.
  destruct s as [ctx src proc sr blob0 cbs [q n res rej inv cl st]].
  cbn [Service.callbacks Service.effects Service.closing] in Hcb.
  cbn [foldl Service.step].
  unfold Service.startRecording, Service.onStream, Service.clearWorker,
    Service.initAudioContext, Service.clearAudioBlob, Service.postMessage,
    Service.log_started, Service.set_nodes, Service.set_audioContext,
    Service.set_audioBlob, Service.with_effects.
  cbn [Service.audioContext Service.resourceNode Service.jsNode Service.sampleRate
       Service.audioBlob Service.callbacks Service.effects Service.to_worker
       Service.promises Service.resolved Service.rejected Service.invoked
       Service.closing Service.started].
  rewrite audio_frames_posted.
  match goal with
  | |- context [Service.stopRecording ?r] =>
      rewrite (stopRecording_spec r [] Hcb)
  end.
  unfold Service.postMessage, Service.set_callbacks, Service.new_promise,
    Service.with_effects.
  cbn [snd app Service.audioContext Service.resourceNode Service.jsNode
       Service.sampleRate Service.audioBlob Service.callbacks Service.effects
       Service.to_worker Service.promises Service.resolved Service.rejected
       Service.invoked Service.closing Service.started].
  unfold session_commands, Service.mimeType. by rewrite <- !app_assoc.
Qed.

(** X11. A whole recording.  When no export is pending and no audio context
    is being closed, a recording posts clear, init with the device's sample
    rate and one channel, one record command per frame and one export, in
    this order; the worker, whatever it held before, answers with the WAV
    file of exactly these frames; and once the service has received this
    answer and the audio context is closed, it holds that blob, the promise
    of [stopRecording] is resolved, no callback is pending, the audio nodes
    are deleted and the context is closed. *)
Theorem recording_session (s : Service.RecordService) (w : Worker.WorkerScope)
    (rate : Number) (frames : list Frame) :
  Service.callbacks s !! "exportWav" = Some [] ->
  Service.closing (Service.effects s) = [] ->
  let s1 := foldl Service.step s (session rate frames) in
  let s3 := foldl Service.step s1
              [Service.Receive (export_reply (wav_blob rate frames)); Service.Closed] in
  Service.to_worker (Service.effects s1)
  = Service.to_worker (Service.effects s) ++ session_commands rate frames
  ∧ Worker.posted (Worker.run (session_commands rate frames) w)
    = Worker.posted w ++ [export_reply (wav_blob rate frames)]
  ∧ Service.getAudioBlob s3 = Some (wav_blob rate frames)
  ∧ Service.resolved (Service.effects s3)
    = Service.resolved (Service.effects s) ++ [Service.promises (Service.effects s)]
  ∧ Service.pending s3 = []
  ∧ Service.jsNode s3 = None
  ∧ Service.resourceNode s3 = None
  ∧ Service.audioContext s3 = Some Service.closed.
Proof.
  intros Hcb Hcl s1 s3.
  pose proof (session_service_state s rate frames Hcb) as Hs1. fold s1 in Hs1.
  unfold s3. clearbody s1. clear s3. subst s1. rewrite Hcl.
  split; [reflexivity|]. split; [apply run_session_commands|].
  generalize (wav_blob rate frames). intros blob.
  cbn [foldl].
  rewrite (receive_while_running blob [] (Service.promises (Service.effects s)))
    by (by rewrite lookup_insert_eq).
  unfold Service.step, Service.context_closed.
  cbn [Service.effects Service.closing app].
  unfold Service.resolve, Service.set_nodes, Service.set_audioContext,
    Service.set_closing, Service.with_effects, Service.pending, Service.getAudioBlob.
  cbn [Service.audioContext Service.resourceNode Service.jsNode
       Service.sampleRate Service.audioBlob Service.callbacks Service.effects
       Service.to_worker Service.promises Service.resolved Service.rejected
       Service.invoked Service.closing Service.started].
  rewrite lookup_insert_eq. done.
Qed.

Lemma recording_session_witness :
  Service.getAudioBlob
    (foldl Service.step Service.create
       (session (of_Z 8000) [[half]]
        ++ [Service.Receive (export_reply (wav_blob (of_Z 8000) [[half]]));
            Service.Closed]))
  = Some (wav_blob (of_Z 8000) [[half]]).
Proof.
  rewrite foldl_app.
  exact (proj1 (proj2 (proj2 (recording_session Service.create Worker.initial
                                (of_Z 8000) [[half]] eq_refl eq_refl)))).
Defined.

(** ** Replies and promises in every state of the service *)

(** The callbacks of a reachable service are the export stack alone. *)
Lemma after_callbacks (actions : list Service.action) :
  Service.callbacks (Service.after actions)
  = {[ "exportWav" := Service.pending (Service.after actions) ]}.
Proof.
  destruct (after_callbacks_ok actions) as (stack & Hs & _).
  unfold Service.pending. by rewrite Hs, lookup_singleton_eq.
Qed.

(** X12. A reply that matches no pending callback changes nothing: in any
    state the service can reach, a reply whose command is not [exportWav]
    makes the handler throw a [TypeError], and an [exportWav] reply that
    arrives while no callback is pending is ignored; the service is left as
    it was in both cases. *)
Theorem unmatched_reply_changes_nothing (actions : list Service.action) (event : Reply) :
  let s := Service.after actions in
  (reply_command event ≠ "exportWav" ->
   Service.onmessage event s = (Throw TypeError, s))
  ∧ (reply_command event = "exportWav" -> Service.pending s = [] ->
     Service.onmessage event s = (Normal (), s)).
Proof.
  intros s. pose proof (after_callbacks actions) as Hcb. fold s in Hcb.
  unfold Service.onmessage. split.
  - intros Hne. by rewrite Hcb, lookup_singleton_ne.
  - intros -> Hp. by rewrite Hcb, Hp, lookup_singleton_eq.
Qed.

Lemma unmatched_reply_changes_nothing_witness :
  Service.onmessage {| reply_command := "record"; reply_data := wav_blob (of_Z 8000) [] |}
    (Service.after [Service.Stop])
  = (Throw TypeError, Service.after [Service.Stop]).
Proof.
  apply (proj1 (unmatched_reply_changes_nothing [Service.Stop]
                  {| reply_command := "record"; reply_data := wav_blob (of_Z 8000) [] |})).
  vm_compute. discriminate.
Defined.

(** The replies to a stack of pending callbacks. *)
Lemma receive_pops (blobs : list Blob) (stack : list nat) (s : Service.RecordService) :
  Service.callbacks s !! "exportWav" = Some stack ->
  length blobs = length stack ->
  let s' := Service.receive (map export_reply blobs) s in
  Service.invoked (Service.effects s')
  = Service.invoked (Service.effects s) ++ zip (reverse stack) blobs
  ∧ Service.pending s' = [].
Proof.
  revert stack s. induction blobs as [|blob blobs IH]; intros stack s Hs Hlen.
  - destruct stack; [|done]. cbn. rewrite app_nil_r.
    unfold Service.pending. by rewrite Hs.
  - destruct stack as [|p stack _] using rev_ind; [done|].
    rewrite length_app in Hlen. cbn in Hlen.
    destruct (onmessage_pops s stack p blob Hs) as (Hi & Hc & _).
    cbn [map]. unfold Service.receive. cbn [foldl]. fold (Service.receive).
    change (foldl _ ?s0 (map export_reply blobs))
      with (Service.receive (map export_reply blobs) s0).
    unfold export_reply at 2.
    destruct (IH stack (snd (Service.onmessage
                               {| reply_command := "exportWav"; reply_data := blob |} s)))
      as [Hi' Hp']; [by rewrite Hc, lookup_insert_eq|lia|].
    cbn zeta in Hi', Hp'. split; [|exact Hp'].
    rewrite Hi', Hi, reverse_snoc, <- app_assoc. reflexivity.
Qed.

(** X13. Last in, first out.  When [stopRecording] is called [k] times
    before any reply arrives, and the worker's [k] replies are then
    received in the order it posted them, the callbacks are run in the
    reverse order of the calls: the last caller is given the first blob,
    and so on, and no callback is left pending. *)
Theorem overlapping_stops_reversed (s : Service.RecordService) (blobs : list Blob) :
  Service.callbacks s !! "exportWav" = Some [] ->
  let k := length blobs in
  let p := Service.promises (Service.effects s) in
  let s1 := foldl Service.step s (replicate k Service.Stop) in
  let s2 := Service.receive (map export_reply blobs) s1 in
  Service.pending s1 = seq p k
  ∧ Service.invoked (Service.effects s2)
    = Service.invoked (Service.effects s) ++ zip (reverse (seq p k)) blobs
  ∧ Service.pending s2 = [].
Proof.
  intros Hs k p s1 s2.
  assert (∀ (n : nat) (s0 : Service.RecordService) (stack : list nat),
             Service.callbacks s0 !! "exportWav" = Some stack ->
             let s' := foldl Service.step s0 (replicate n Service.Stop) in
             Service.callbacks s' !! "exportWav"
             = Some (stack ++ seq (Service.promises (Service.effects s0)) n)
             ∧ Service.invoked (Service.effects s')
               = Service.invoked (Service.effects s0)) as Hstops.
  { induction n as [|n IHn]; intros s0 stack Hs0.
    - cbn. by rewrite app_nil_r.
    - cbn [replicate foldl Service.step].
      rewrite (stopRecording_spec s0 stack Hs0). cbn [snd].
      match goal with
      | |- context [foldl Service.step ?s1' _] =>
          destruct (IHn s1' (stack ++ [Service.promises (Service.effects s0)]))
            as [Hc Hi]; [cbn; by rewrite lookup_insert_eq|]
      end.
      cbn zeta in Hc, Hi. rewrite Hc, Hi. cbn. by rewrite <- app_assoc. }
  destruct (Hstops k s [] Hs) as [Hc Hi]. fold s1 p in Hc, Hi. cbn [app] in Hc.
  split; [unfold Service.pending; by rewrite Hc|].
  destruct (receive_pops blobs (seq p k) s1 Hc) as [Hi2 Hp2];
    [by rewrite length_seq|].
  fold s2 in Hi2, Hp2. split; [|exact Hp2]. by rewrite Hi2, Hi.
Qed.

Lemma overlapping_stops_reversed_witness :
  Service.pending (foldl Service.step Service.create (replicate 3 Service.Stop))
  = [0; 1; 2]%nat.
Proof.
  exact (proj1 (overlapping_stops_reversed Service.create
                  [wav_blob (of_Z 1) []; wav_blob (of_Z 2) []; wav_blob (of_Z 3) []]
                  eq_refl)).
Defined.

(** What a reply does to the promises when a callback is pending. *)
Lemma onmessage_pops_promises (s : Service.RecordService) (stack : list nat) (p : nat)
    (blob : Blob) :
  Service.callbacks s !! "exportWav" = Some (stack ++ [p]) ->
  let s' := snd (Service.onmessage (export_reply blob) s) in
  Service.rejected (Service.effects s') = Service.rejected (Service.effects s)
  ∧ ((Service.resolved (Service.effects s') = Service.resolved (Service.effects s)
      ∧ Service.closing (Service.effects s') = Service.closing (Service.effects s))
     ∨ (Service.resolved (Service.effects s') = Service.resolved (Service.effects s)
        ∧ Service.closing (Service.effects s')
          = Service.closing (Service.effects s) ++ [p])
     ∨ (Service.resolved (Service.effects s')
        = Service.resolved (Service.effects s) ++ [p]
        ∧ Service.closing (Service.effects s') = Service.closing (Service.effects s))).
Proof.
  intros H. unfold Service.onmessage, export_reply. cbn [reply_command reply_data].
  rewrite H, pop_snoc. unfold Service.export_callback.
  destruct s as [ctx src proc rate blob0 cbs eff]. cbn in *.
  destruct proc, src, ctx as [[]|]; cbn; auto.
Qed.

Lemma step_preserves_promises_ok (s : Service.RecordService) (a : Service.action) :
  Service.callbacks_ok s -> promises_ok s -> promises_ok (Service.step s a).
Proof.
  intros (stack & Hs & Hnd & _) (Hrej & Hcount & Hnd2 & Hsub).
  assert (Service.pending s = stack) as Hpend
    by (unfold Service.pending; by rewrite Hs, lookup_singleton_eq).
  rewrite Hpend in Hcount.
  destruct a as [rate| |frame| |event|]; cbn [Service.step].
  - unfold promises_ok, Service.pending. cbn. by rewrite Hs, lookup_singleton_eq.
  - unfold promises_ok, Service.pending. cbn. by rewrite Hs, lookup_singleton_eq.
  - unfold promises_ok, Service.pending. cbn. by rewrite Hs, lookup_singleton_eq.
  - rewrite (stopRecording_spec s stack) by (by rewrite Hs, lookup_singleton_eq).
    unfold promises_ok, Service.pending. cbn. rewrite lookup_insert_eq. cbn.
    rewrite length_app. cbn. repeat split; try done. lia.
  - destruct event as [cmd blob].
    destruct (decide (cmd = "exportWav")) as [->|Hne].
    + destruct stack as [|p stack _] using rev_ind.
      * unfold Service.onmessage. cbn [reply_command].
        rewrite Hs, lookup_singleton_eq. cbn.
        unfold promises_ok. by rewrite Hpend.
      * assert (Service.callbacks s !! "exportWav" = Some (stack ++ [p])) as Hl
          by (by rewrite Hs, lookup_singleton_eq).
        destruct (onmessage_pops s stack p blob Hl) as (Hi & Hc & _ & Hp).
        destruct (onmessage_pops_promises s stack p blob Hl) as (Hr & Hcases).
        unfold export_reply in Hr, Hcases. cbn zeta in *.
        set (s' := snd (Service.onmessage _ s)) in *.
        assert (p ∉ map fst (Service.invoked (Service.effects s))) as Hfresh.
        { rewrite <- app_assoc in Hnd. apply NoDup_app in Hnd as (_ & _ & Hnd).
          cbn in Hnd. by apply NoDup_cons in Hnd as [Hnd _]. }
        assert (p ∉ Service.resolved (Service.effects s)
                    ++ Service.closing (Service.effects s)) as Hfresh2
          by (intros Hin; by apply Hfresh, Hsub).
        unfold promises_ok, Service.pending.
        rewrite Hr, Hi, Hc, Hp, lookup_insert_eq, Hcount, map_app, !length_app.
        cbn [default from_option length map fst]. unfold id.
        split; [done|]. split; [lia|].
        destruct Hcases as [[-> ->]|[[-> ->]|[-> ->]]].
        -- split; [done|]. intros x Hx. apply elem_of_app. left. by apply Hsub.
        -- rewrite app_assoc. split;
             [|intros x; rewrite !elem_of_app; intros [Hx|Hx];
               [left; apply Hsub; by apply elem_of_app|by right]].
           apply NoDup_app. split; [done|]. split; [|apply NoDup_singleton].
           intros x Hx. rewrite list_elem_of_singleton. by intros ->.
        -- assert ((Service.resolved (Service.effects s) ++ [p])
                   ++ Service.closing (Service.effects s)
                   ≡ₚ p :: Service.resolved (Service.effects s)
                        ++ Service.closing (Service.effects s)) as Hperm.
           { rewrite <- app_assoc. symmetry. apply Permutation_middle. }
           split.
           ++ rewrite Hperm. by apply NoDup_cons.
           ++ rewrite Hperm. intros x Hx. apply elem_of_app.
              apply elem_of_cons in Hx as [->|Hx];
                [right; by apply list_elem_of_singleton|].
              left. by apply Hsub.
    + unfold Service.onmessage. cbn [reply_command].
      rewrite Hs, lookup_singleton_ne by done. cbn.
      unfold promises_ok. by rewrite Hpend.
  - unfold Service.context_closed.
    destruct (Service.closing (Service.effects s)) as [|p rest] eqn:Hcl.
    + unfold promises_ok. by rewrite Hpend, Hcl.
    + unfold promises_ok, Service.pending. cbn. rewrite Hs, lookup_singleton_eq.
      assert ((Service.resolved (Service.effects s) ++ [p]) ++ rest
              ≡ₚ Service.resolved (Service.effects s) ++ p :: rest) as Hperm
        by (by rewrite <- app_assoc).
      split; [done|]. split; [done|]. by rewrite Hperm.
Qed.

Lemma after_promises_ok (actions : list Service.action) :
  promises_ok (Service.after actions).
Proof.
  unfold Service.after.
  assert (Service.callbacks_ok Service.create ∧ promises_ok Service.create) as H0.
  { split.
    - exists []. repeat split; cbn; constructor.
    - repeat split; cbn; [constructor|]. intros x Hx. by apply elem_of_nil in Hx. }
  revert H0. generalize Service.create.
  induction actions as [|a actions IH]; intros s [Hc Hp]; [done|].
  cbn. apply IH. split.
  - by apply step_preserves_callbacks_ok.
  - by apply step_preserves_promises_ok.
Qed.

(** X14. In every state the service can reach, no promise of
    [stopRecording] has been rejected; each promise is either still
    pending or had its callback run; a promise is resolved, or waits for
    the audio context to close, at most once, and only after its callback
    was given a blob. *)
Theorem promises_invariant (actions : list Service.action) :
  promises_ok (Service.after actions).
Proof. apply after_promises_ok. Qed.

(** ** The recorder component *)

Section ComponentProperties.

Context {Svg : Type} (draw : Z -> Svg -> Svg).

(** The drawings of [j] consecutive steps of the animation, from [k] on. *)
Lemma ticks_while_recording (j : nat) (k : Z) (g : Svg) ac ia col ic url th svc :
  k + Z.of_nat j <= Component.frameFactor ->
  foldl (Component.step draw)
    {| Component.activeColor := ac; Component.iconActive := ia;
       Component.strokeColor := col; Component.icon := ic; Component.svg := g;
       Component.audioFileUrl := url; Component.isRecording := true;
       Component.timers := [k]; Component.thens := th;
       Component.recordService := svc |}
    (replicate j Component.Tick)
  = {| Component.activeColor := ac; Component.iconActive := ia;
       Component.strokeColor := col; Component.icon := ic;
       Component.svg := foldl (fun g i => draw i g) g (seqZ k (Z.of_nat j));
       Component.audioFileUrl := url; Component.isRecording := true;
       Component.timers := [k + Z.of_nat j]; Component.thens := th;
       Component.recordService := svc |}.
Proof.
  revert k g. induction j as [|j IH]; intros k g Hk.
  - cbn. by rewrite Z.add_0_r.
  - cbn [replicate foldl]. cbn [Component.step Component.timers].
    unfold Component.timeout. cbn [Component.isRecording Component.set_timers negb].
    unfold Component.frameFactor in *.
    cbn [Component.set_svg Component.svg Component.activeColor Component.iconActive
         Component.strokeColor Component.icon Component.audioFileUrl
         Component.isRecording Component.timers Component.thens
         Component.recordService].
    destruct (Z.leb_spec (k + 1) 500); [|lia].
    unfold Component.animationLoop, Component.set_timers. cbn -[Z.add seqZ].
    rewrite IH by lia. rewrite Nat2Z.inj_succ, (seqZ_cons k) by lia.
    cbn [foldl]. rewrite Z.pred_succ.
    by replace (Z.succ k) with (k + 1) by lia;
       replace (k + Z.succ (Z.of_nat j)) with (k + 1 + Z.of_nat j) by lia.
Qed.

(** The timeout that finds [percent] at [frameFactor]. *)
Lemma last_tick (g : Svg) (rest : list Z) ac ia col ic url th svc :
  Component.step draw
    {| Component.activeColor := ac; Component.iconActive := ia;
       Component.strokeColor := col; Component.icon := ic; Component.svg := g;
       Component.audioFileUrl := url; Component.isRecording := true;
       Component.timers := Component.frameFactor :: rest; Component.thens := th;
       Component.recordService := svc |}
    Component.Tick
  = {| Component.activeColor := ac; Component.iconActive := ia;
       Component.strokeColor := col; Component.icon := ic;
       Component.svg := draw Component.frameFactor g;
       Component.audioFileUrl := url; Component.isRecording := false;
       Component.timers := rest; Component.thens := th ++ [fst (Service.stopRecording svc)];
       Component.recordService := snd (Service.stopRecording svc) |}.
Proof. reflexivity. Qed.

(** X15. The recording stops by itself.  Once the microphone is granted,
    the animation counts 500 timeouts: during the first 499 the component
    keeps recording and posts nothing; at the 500th it stops the recording,
    which posts one export command, and no timeout is left. *)
Theorem recording_stops_by_itself (c : Component.RecorderComponent Svg)
    (stack : list nat) (j : nat) :
  Component.timers c = [] ->
  Service.callbacks (Component.recordService c) !! "exportWav" = Some stack ->
  (j < 500)%nat ->
  let c1 := Component.step draw c Component.StreamGranted in
  let cj := foldl (Component.step draw) c1 (replicate j Component.Tick) in
  let c500 := foldl (Component.step draw) c1 (replicate 500 Component.Tick) in
  (Component.isRecording cj = true
   ∧ Component.timers cj = [1 + Z.of_nat j]
   ∧ Component.posted cj = Component.posted c1)
  ∧ Component.isRecording c500 = false
  ∧ Component.timers c500 = []
  ∧ Component.posted c500 = Component.posted c1 ++ [ExportWavMsg Service.mimeType]
  ∧ Component.svg c500 = foldl (fun g i => draw i g) (Component.svg c) (seqZ 1 500).
Proof.
  intros Ht Hs Hj c1 cj c500.
  destruct c as [ac ia col ic g url rec tm th svc].
  cbn [Component.timers Component.recordService] in Ht, Hs. subst tm.
  assert (c1 = {| Component.activeColor := ac; Component.iconActive := ia;
                  Component.strokeColor := ac; Component.icon := ia;
                  Component.svg := g; Component.audioFileUrl := url;
                  Component.isRecording := true; Component.timers := [1];
                  Component.thens := th;
                  Component.recordService := Service.onStream svc |}) as Hc1
    by reflexivity.
  unfold cj, c500. clearbody c1. subst c1. clear cj c500. split.
  - rewrite ticks_while_recording by (unfold Component.frameFactor; lia). done.
  - change 500%nat with (499 + 1)%nat. rewrite replicate_add, foldl_app.
    rewrite ticks_while_recording by (unfold Component.frameFactor; lia).
    cbn [replicate foldl].
    change (1 + Z.of_nat 499) with Component.frameFactor. rewrite last_tick.
    unfold Component.posted.
    cbn [Component.isRecording Component.timers Component.recordService Component.svg].
    assert (Service.callbacks (Service.onStream svc) !! "exportWav" = Some stack) as Hs'
      by exact Hs.
    rewrite (stopRecording_spec _ stack Hs').
    split; [reflexivity|]. split; [reflexivity|]. split; [reflexivity|].
    change 500 with (Z.of_nat 499 + 1). rewrite seqZ_app by lia.
    by rewrite foldl_app.
Qed.

(** Timeouts that find the recording stopped. *)
Lemma ticks_while_stopped (tm : list Z) (g : Svg) ac ia col ic url th svc :
  foldl (Component.step draw)
    (Component.Build_RecorderComponent Svg ac ia col ic g url false tm th svc)
    (replicate (length tm) Component.Tick)
  = Component.Build_RecorderComponent Svg ac ia col ic g url false [] th svc.
Proof.
  induction tm as [|k tm IH]; [reflexivity|].
  cbn [length replicate foldl]. exact IH.
Qed.

(** X16. A manual stop.  [toggleRecording] on a component that is recording
    stops it and posts one export command; the timeouts of the animation
    that are still pending then fire without drawing, without setting
    another timeout and without posting anything. *)
Theorem manual_stop_ends_animation (c : Component.RecorderComponent Svg)
    (rate : Number) (stack : list nat) :
  Component.isRecording c = true ->
  Service.callbacks (Component.recordService c) !! "exportWav" = Some stack ->
  let c1 := Component.step draw c (Component.Toggle rate) in
  let c2 := foldl (Component.step draw) c1
              (replicate (length (Component.timers c)) Component.Tick) in
  Component.isRecording c1 = false
  ∧ Component.posted c1 = Component.posted c ++ [ExportWavMsg Service.mimeType]
  ∧ Component.timers c1 = Component.timers c
  ∧ Component.isRecording c2 = false
  ∧ Component.timers c2 = []
  ∧ Component.svg c2 = Component.svg c
  ∧ Component.posted c2 = Component.posted c1.
Proof.
  intros Hrec Hs c1 c2.
  destruct c as [ac ia col ic g url rec tm th svc].
  cbn [Component.isRecording Component.recordService Component.timers] in *. subst rec.
  assert (c1 = Component.Build_RecorderComponent Svg ac ia col ic g url false tm
                 (th ++ [fst (Service.stopRecording svc)])
                 (snd (Service.stopRecording svc))) as Hc1 by reflexivity.
  unfold c2. clearbody c1. subst c1. clear c2.
  rewrite ticks_while_stopped. unfold Component.posted.
  cbn [Component.isRecording Component.recordService Component.timers Component.svg].
  by rewrite (stopRecording_spec svc stack Hs).
Qed.

(** Two animations at once: each pair of timeouts advances both. *)
Lemma two_loops (j : nat) (a b : Z) (g : Svg) ac ia col ic url th svc :
  a + Z.of_nat j <= Component.frameFactor ->
  b + Z.of_nat j <= Component.frameFactor ->
  ∃ g' : Svg,
    foldl (Component.step draw)
      (Component.Build_RecorderComponent Svg ac ia col ic g url true [a; b] th svc)
      (replicate (2 * j) Component.Tick)
    = Component.Build_RecorderComponent Svg ac ia col ic g' url true
        [a + Z.of_nat j; b + Z.of_nat j] th svc.
Proof.
  unfold Component.frameFactor.
  revert a b g. induction j as [|j IH]; intros a b g Ha Hb.
  - exists g. cbn. by rewrite !Z.add_0_r.
  - replace (2 * S j)%nat with (S (S (2 * j))) by lia.
    cbn [replicate foldl].
    assert (Component.step draw
              (Component.step draw
                 (Component.Build_RecorderComponent Svg ac ia col ic g url true [a; b] th svc)
                 Component.Tick)
              Component.Tick
            = Component.Build_RecorderComponent Svg ac ia col ic (draw b (draw a g)) url
                true [a + 1; b + 1] th svc) as ->.
    { cbn [Component.step Component.timers]. unfold Component.timeout.
      cbn [Component.isRecording Component.set_timers negb Component.set_svg
           Component.svg Component.activeColor Component.iconActive
           Component.strokeColor Component.icon Component.audioFileUrl
           Component.timers Component.thens Component.recordService].
      unfold Component.frameFactor.
      destruct (Z.leb_spec (a + 1) 500); [|lia].
      cbn [Component.animationLoop Component.set_timers Component.timers app
           Component.isRecording negb Component.set_svg
           Component.svg Component.activeColor Component.iconActive
           Component.strokeColor Component.icon Component.audioFileUrl
           Component.thens Component.recordService].
      destruct (Z.leb_spec (b + 1) 500); [|lia]. reflexivity. }
    destruct (IH (a + 1) (b + 1) (draw b (draw a g))) as [g' Hg']; [lia..|].
    exists g'. rewrite Hg'. do 2 f_equal; [lia|f_equal; lia].
Qed.

(** X17. A recording restarted before the animation of the previous one
    has seen its last timeout is cut short.  The component is recording
    and the animation has a timeout pending for step [k]; it is stopped and
    started again, and the microphone is granted, before that timeout
    fires.  Then both animations run, and the old one stops the new
    recording when it reaches step 500, that is after only 500 - k steps
    of the new animation. *)
Theorem restarted_recording_is_cut_short (c : Component.RecorderComponent Svg)
    (r1 r2 : Number) (stack : list nat) (k : Z) :
  Component.isRecording c = true ->
  Component.timers c = [k] ->
  1 <= k <= 500 ->
  Service.callbacks (Component.recordService c) !! "exportWav" = Some stack ->
  let c3 := foldl (Component.step draw) c
              [Component.Toggle r1; Component.Toggle r2; Component.StreamGranted] in
  let c4 := foldl (Component.step draw) c3
              (replicate (2 * Z.to_nat (500 - k)) Component.Tick) in
  let c5 := Component.step draw c4 Component.Tick in
  (Component.isRecording c3 = true ∧ Component.timers c3 = [k; 1])
  ∧ (Component.isRecording c4 = true ∧ Component.timers c4 = [500; 501 - k]
     ∧ Component.posted c4 = Component.posted c3)
  ∧ (Component.isRecording c5 = false ∧ Component.timers c5 = [501 - k]
     ∧ Component.posted c5 = Component.posted c3 ++ [ExportWavMsg Service.mimeType]).
Proof.
  intros Hrec Ht Hk Hs c3 c4 c5.
  destruct c as [ac ia col ic g url rec tm th svc].
  cbn [Component.isRecording Component.recordService Component.timers] in *.
  subst rec tm.
  set (svc3 := Service.onStream
                 (Service.startRecording r2 (snd (Service.stopRecording svc)))).
  assert (c3 = Component.Build_RecorderComponent Svg ac ia ac ia g url true [k; 1]
                 (th ++ [fst (Service.stopRecording svc)]) svc3) as Hc3
    by reflexivity.
  unfold c5, c4. clearbody c3. subst c3. clear c4 c5.
  split; [done|].
  destruct (two_loops (Z.to_nat (500 - k)) k 1 g ac ia ac ia url
              (th ++ [fst (Service.stopRecording svc)]) svc3) as [g' ->];
    [unfold Component.frameFactor; lia..|].
  replace (k + Z.of_nat (Z.to_nat (500 - k))) with Component.frameFactor
    by (unfold Component.frameFactor; lia).
  replace (1 + Z.of_nat (Z.to_nat (500 - k))) with (501 - k) by lia.
  split; [done|]. rewrite last_tick. unfold Component.posted.
  cbn [Component.isRecording Component.recordService Component.timers].
  assert (Service.callbacks svc3 !! "exportWav"
          = Some (stack ++ [Service.promises (Service.effects svc)])) as Hs3.
  { unfold svc3. rewrite (stopRecording_spec svc stack Hs).
    cbn [snd Service.onStream Service.startRecording Service.callbacks
         Service.clearWorker Service.initAudioContext Service.clearAudioBlob
         Service.postMessage Service.log_started Service.set_nodes
         Service.set_audioContext Service.set_audioBlob Service.with_effects
         Service.set_callbacks].
    by rewrite lookup_insert_eq. }
  by rewrite (stopRecording_spec svc3 _ Hs3).
Qed.

(** The frames that arrive go to the service. *)
Lemma component_frames (frames : list Frame) (g : Svg) ac ia col ic url rec tm th svc :
  foldl (Component.step draw)
    (Component.Build_RecorderComponent Svg ac ia col ic g url rec tm th svc)
    (map Component.AudioFrame frames)
  = Component.Build_RecorderComponent Svg ac ia col ic g url rec tm th
      (foldl Service.step svc (map Service.Audio frames)).
Proof.
  revert svc. induction frames as [|f frames IH]; intros svc; [reflexivity|].
  cbn [map foldl]. rewrite <- IH. reflexivity.
Qed.

Lemma stopRecording_fst (s : Service.RecordService) :
  fst (Service.stopRecording s) = Service.promises (Service.effects s).
Proof. unfold Service.stopRecording. cbn. by destruct (_ !! _). Qed.

(** The callbacks given to [then], for one promise that is waited for. *)
Lemma run_thens_not_due (p : nat) (g : Svg) ac ia col ic url rec tm svc :
  p ∉ Service.resolved (Service.effects svc) ->
  Component.run_thens
    (Component.Build_RecorderComponent Svg ac ia col ic g url rec tm [p] svc)
  = Component.Build_RecorderComponent Svg ac ia col ic g url rec tm [p] svc.
Proof.
  intros Hp. unfold Component.run_thens. cbn [Component.thens Component.recordService].
  rewrite filter_cons_False by done.
  rewrite filter_cons_True by done. by rewrite !filter_nil.
Qed.

Lemma run_thens_due (p : nat) (blob : Blob) (g : Svg) ac ia col ic url rec tm svc :
  p ∈ Service.resolved (Service.effects svc) ->
  Service.audioBlob svc = Some blob ->
  Component.run_thens
    (Component.Build_RecorderComponent Svg ac ia col ic g url rec tm [p] svc)
  = Component.Build_RecorderComponent Svg ac ia col ic g (Some blob) rec tm [] svc.
Proof.
  intros Hp Hb. unfold Component.run_thens.
  cbn [Component.thens Component.recordService].
  rewrite filter_cons_True by done.
  rewrite filter_cons_False by (intros H; by apply H). rewrite !filter_nil.
  cbn [Component.set_thens Component.recordService]. unfold Service.getAudioBlob.
  by rewrite Hb.
Qed.

(** X18. A whole recording, seen from the component.  Starting from a
    component that is not recording and waits for no promise, with a
    service where no export is pending and no audio context is being
    closed: a start, the grant of the microphone, the frames and a stop
    post the commands of one recording; the worker's answer alone does not
    yet change the object URL; once the audio context is closed, the
    object URL designates the WAV file of exactly these frames. *)
Theorem component_session (c : Component.RecorderComponent Svg)
    (rate rate' : Number) (frames : list Frame) :
  Component.isRecording c = false ->
  Component.thens c = [] ->
  Service.callbacks (Component.recordService c) !! "exportWav" = Some [] ->
  Service.closing (Service.effects (Component.recordService c)) = [] ->
  Service.promises (Service.effects (Component.recordService c))
  ∉ Service.resolved (Service.effects (Component.recordService c)) ->
  let c1 := foldl (Component.step draw) c
              ([Component.Toggle rate; Component.StreamGranted]
               ++ map Component.AudioFrame frames ++ [Component.Toggle rate']) in
  let c2 := Component.step draw c1
              (Component.WorkerReply (export_reply (wav_blob rate frames))) in
  let c3 := Component.step draw c2 Component.ContextClosed in
  Component.isRecording c1 = false
  ∧ Component.posted c1 = Component.posted c ++ session_commands rate frames
  ∧ Component.audioFileUrl c2 = Component.audioFileUrl c
  ∧ Component.audioFileUrl c3 = Some (wav_blob rate frames)
  ∧ Component.thens c3 = [].
Proof.
  intros Hrec Hth Hcb Hcl Hfresh c1 c2 c3.
  destruct c as [ac ia col ic g url rec tm th svc].
  cbn [Component.isRecording Component.recordService Component.thens] in *.
  subst rec th.
  set (p := Service.promises (Service.effects svc)) in *.
  assert (c1 = Component.Build_RecorderComponent Svg ac ia ac ia g url false (tm ++ [1])
                 [p] (foldl Service.step svc (session rate frames))) as Hc1.
  { unfold c1. rewrite !foldl_app. cbn [foldl].
    change (Component.step draw
              (Component.step draw
                 (Component.Build_RecorderComponent Svg ac ia col ic g url false tm [] svc)
                 (Component.Toggle rate)) Component.StreamGranted)
      with (Component.Build_RecorderComponent Svg ac ia ac ia g url true (tm ++ [1]) []
              (foldl Service.step svc [Service.Start rate; Service.Stream])).
    rewrite component_frames.
    unfold session. rewrite !foldl_app.
    set (sF := foldl Service.step _ (map Service.Audio frames)).
    change (Component.step draw ?x (Component.Toggle rate'))
      with (Component.Build_RecorderComponent Svg ac ia ac ia g url false (tm ++ [1])
              ([] ++ [fst (Service.stopRecording sF)]) (snd (Service.stopRecording sF))).
    assert (∀ s0, Service.promises
                    (Service.effects
                       (foldl Service.step s0 (map Service.Audio frames)))
                  = Service.promises (Service.effects s0)) as Hp.
    { clear. induction frames as [|f fs IH]; intros s0; [done|]. cbn [map foldl].
      by rewrite IH. }
    rewrite stopRecording_fst. unfold sF at 1. rewrite Hp. reflexivity. }
  rewrite (session_service_state svc rate frames Hcb) in Hc1. fold p in Hc1.
  rewrite Hcl in Hc1.
  unfold c3, c2. clearbody c1. subst c1. clear c2 c3.
  generalize (wav_blob rate frames). intros blob.
  match goal with
  | |- context [Component.step draw
                  (Component.Build_RecorderComponent Svg _ _ _ _ _ _ _ _ _ ?s1)
                  (Component.WorkerReply ?r)] =>
      change (Component.step draw
                (Component.Build_RecorderComponent Svg ac ia ac ia g url false
                   (tm ++ [1]) [p] s1)
                (Component.WorkerReply r))
        with (Component.run_thens
                (Component.Build_RecorderComponent Svg ac ia ac ia g url false
                   (tm ++ [1]) [p] (Service.step s1 (Service.Receive r))))
  end.
  rewrite (receive_while_running blob [] p) by (by rewrite lookup_insert_eq).
  rewrite run_thens_not_due by exact Hfresh.
  change (Component.step draw
            (Component.Build_RecorderComponent Svg ac ia ac ia g url false
               (tm ++ [1]) [p] ?s2) Component.ContextClosed)
    with (Component.run_thens
            (Component.Build_RecorderComponent Svg ac ia ac ia g url false
               (tm ++ [1]) [p] (Service.context_closed s2))).
  rewrite (run_thens_due p blob).
  - repeat split; reflexivity.
  - cbn. apply elem_of_app. right. by apply list_elem_of_singleton.
  - reflexivity.
Qed.

End ComponentProperties.

Lemma manual_stop_ends_animation_witness :
  Component.isRecording
    (Component.step no_draw recording_component (Component.Toggle (of_Z 8000)))
  = false.
Proof.
  exact (proj1 (manual_stop_ends_animation no_draw recording_component (of_Z 8000) []
                  eq_refl eq_refl)).
Defined.

Lemma restarted_recording_is_cut_short_witness :
  Component.timers
    (foldl (Component.step no_draw) recording_component
       [Component.Toggle (of_Z 8000); Component.Toggle (of_Z 8000);
        Component.StreamGranted])
  = [1; 1].
Proof.
  refine (proj2 (proj1 (restarted_recording_is_cut_short no_draw recording_component
                          (of_Z 8000) (of_Z 8000) [] 1 eq_refl eq_refl _ eq_refl))).
  lia.
Defined.

Lemma component_session_witness :
  Component.audioFileUrl
    (foldl (Component.step no_draw) fresh_component
       ([Component.Toggle (of_Z 8000); Component.StreamGranted]
        ++ map Component.AudioFrame [[half]]
        ++ [Component.Toggle (of_Z 8000)]
        ++ [Component.WorkerReply (export_reply (wav_blob (of_Z 8000) [[half]]));
            Component.ContextClosed]))
  = Some (wav_blob (of_Z 8000) [[half]]).
Proof.
  rewrite !app_assoc, foldl_app, <- !app_assoc.
  refine (proj1 (proj2 (proj2 (proj2
            (component_session no_draw fresh_component (of_Z 8000) (of_Z 8000) [[half]]
               eq_refl eq_refl eq_refl eq_refl _))))).
  apply not_elem_of_nil.
Defined.

Lemma recording_stops_by_itself_witness :
  Component.isRecording
    (foldl (Component.step no_draw)
       (Component.step no_draw fresh_component Component.StreamGranted)
       (replicate 500 Component.Tick))
  = false.
Proof.
  refine (proj1 (proj2 (recording_stops_by_itself no_draw fresh_component [] 0
                          eq_refl eq_refl _))).
  lia.
Defined.


(** ** A stop before any start *)

(** Without a start there is no audio context, and none is being closed. *)
Lemma step_without_start (s : Service.RecordService) (a : Service.action) :
  (∀ rate : Number, a ≠ Service.Start rate) ->
  Service.audioContext s = None ∧ Service.closing (Service.effects s) = [] ->
  Service.audioContext (Service.step s a) = None
  ∧ Service.closing (Service.effects (Service.step s a)) = [].
Proof.
  intros Ha [Hctx Hcl]. destruct a as [rate| |frame| |event|]; cbn [Service.step].
  - by destruct (Ha rate).
  - done.
  - done.
  - unfold Service.stopRecording. by destruct (_ !! _).
  - unfold Service.onmessage. destruct (_ !! _) as [stack|]; [|done].
    destruct (Service.pop stack) as [[stack' callback]|]; [|done].
    unfold Service.export_callback.
    destruct s as [ctx src proc rate blob0 cbs eff]. cbn in Hctx, Hcl. subst ctx.
    destruct proc, src; cbn; done.
  - unfold Service.context_closed. by rewrite Hcl.
Qed.

Lemma steps_without_start (history : list Service.action) (s : Service.RecordService) :
  Forall (fun a => ∀ rate : Number, a ≠ Service.Start rate) history ->
  Service.audioContext s = None ∧ Service.closing (Service.effects s) = [] ->
  Service.audioContext (foldl Service.step s history) = None
  ∧ Service.closing (Service.effects (foldl Service.step s history)) = [].
Proof.
  revert s. induction history as [|a history IH]; intros s Hhist H0; [done|].
  apply Forall_cons in Hhist as [Ha Hhist]. cbn [foldl].
  apply IH; [done|]. by apply step_without_start.
Qed.

(** A promise whose callback ran without resolving it, nor asking for the
    audio context to be closed, is never resolved afterwards. *)
Lemma step_keeps_unresolved (s : Service.RecordService) (a : Service.action) (p : nat) :
  Service.callbacks_ok s ->
  p ∈ map fst (Service.invoked (Service.effects s)) ->
  p ∉ Service.resolved (Service.effects s) ++ Service.closing (Service.effects s) ->
  p ∈ map fst (Service.invoked (Service.effects (Service.step s a)))
  ∧ p ∉ Service.resolved (Service.effects (Service.step s a))
        ++ Service.closing (Service.effects (Service.step s a)).
Proof.
  intros (stack & Hs & Hnd & _) Hin Hout.
  destruct a as [rate| |frame| |event|]; cbn [Service.step].
  - done.
  - done.
  - done.
  - by rewrite (stopRecording_spec s stack) by (by rewrite Hs, lookup_singleton_eq).
  - destruct event as [cmd blob].
    destruct (decide (cmd = "exportWav")) as [->|Hne].
    + destruct stack as [|q stack _] using rev_ind.
      * unfold Service.onmessage. cbn [reply_command].
        by rewrite Hs, lookup_singleton_eq.
      * assert (Service.callbacks s !! "exportWav" = Some (stack ++ [q])) as Hl
          by (by rewrite Hs, lookup_singleton_eq).
        destruct (onmessage_pops s stack q blob Hl) as (Hi & _).
        destruct (onmessage_pops_promises s stack q blob Hl) as (_ & Hcases).
        unfold export_reply in Hcases. cbn zeta in *.
        set (s' := snd (Service.onmessage _ s)) in *.
        assert (q ≠ p) as Hqp.
        { intros ->. rewrite <- app_assoc in Hnd.
          apply NoDup_app in Hnd as (_ & _ & Hnd). cbn in Hnd.
          by apply NoDup_cons in Hnd as [Hnd _]. }
        rewrite Hi, map_app. split; [apply elem_of_app; by left|].
        destruct Hcases as [[-> ->]|[[-> ->]|[-> ->]]]; [done| |].
        -- rewrite app_assoc, elem_of_app, list_elem_of_singleton.
           intros [?|?]; [done|]. by apply Hqp.
        -- rewrite !elem_of_app, list_elem_of_singleton.
           rewrite elem_of_app in Hout.
           intros [[?|?]|?]; [tauto| |tauto]. by apply Hqp.
    + unfold Service.onmessage. cbn [reply_command].
      by rewrite Hs, lookup_singleton_ne.
  - unfold Service.context_closed.
    destruct (Service.closing (Service.effects s)) as [|q rest] eqn:Hcl; [by rewrite Hcl|].
    cbn. split; [done|]. rewrite <- app_assoc. exact Hout.
Qed.

Lemma steps_keep_unresolved (future : list Service.action) (s : Service.RecordService)
    (p : nat) :
  Service.callbacks_ok s ->
  p ∈ map fst (Service.invoked (Service.effects s)) ->
  p ∉ Service.resolved (Service.effects s) ++ Service.closing (Service.effects s) ->
  p ∉ Service.resolved (Service.effects (foldl Service.step s future)).
Proof.
  revert s. induction future as [|a future IH]; intros s Hok Hin Hout.
  - intros H. apply Hout, elem_of_app. by left.
  - cbn [foldl]. destruct (step_keeps_unresolved s a p Hok Hin Hout) as [Hin' Hout'].
    apply IH; [by apply step_preserves_callbacks_ok|done..].
Qed.

(** X19. A stop before any start never resolves.  When [stopRecording] is
    called on a service that was never started, the worker's answer makes
    the callback store the blob and then throw a [TypeError], for want of
    an audio context; the promise handed out by that call is not resolved
    then, and nothing that happens afterwards resolves it. *)
Theorem stop_before_start_never_resolves (history future : list Service.action)
    (blob : Blob) (stack : list nat) (p : nat) :
  Forall (fun a => ∀ rate : Number, a ≠ Service.Start rate) history ->
  Service.pending (Service.after history) = stack ++ [p] ->
  let r := Service.onmessage (export_reply blob) (Service.after history) in
  fst r = Throw TypeError
  ∧ Service.audioBlob (snd r) = Some blob
  ∧ p ∉ Service.resolved (Service.effects (foldl Service.step (snd r) future)).
Proof.
  intros Hhist Hpend r.
  assert (Service.audioContext (Service.after history) = None
          ∧ Service.closing (Service.effects (Service.after history)) = [])
    as [Hctx Hcl].
  { by apply steps_without_start. }
  pose proof (after_callbacks_ok history) as Hok.
  pose proof (after_callbacks history) as Hcb. rewrite Hpend in Hcb.
  set (s := Service.after history) in *.
  assert (Service.callbacks s !! "exportWav" = Some (stack ++ [p])) as Hl
    by (by rewrite Hcb, lookup_singleton_eq).
  destruct (onmessage_pops s stack p blob Hl) as (Hi & _ & Hb & _).
  assert (fst r = Throw TypeError
          ∧ Service.resolved (Service.effects (snd r)) = Service.resolved (Service.effects s)
          ∧ Service.closing (Service.effects (snd r)) = []) as (Hthrow & Hres & Hcl').
  { unfold r, Service.onmessage, export_reply. cbn [reply_command reply_data].
    rewrite Hl, pop_snoc. unfold Service.export_callback. clearbody s.
    destruct s as [ctx src proc rate blob0 cbs eff]. cbn in Hctx, Hcl. subst ctx.
    destruct proc, src; cbn; done. }
  split; [exact Hthrow|]. split; [exact Hb|].
  apply steps_keep_unresolved.
  - apply (step_preserves_callbacks_ok s (Service.Receive (export_reply blob)) Hok).
  - unfold r, export_reply. rewrite Hi, map_app. apply elem_of_app. right.
    by apply list_elem_of_singleton.
  - fold r. rewrite Hres, Hcl', app_nil_r.
    destruct Hok as (stack' & Hs' & Hnd' & _).
    destruct (after_promises_ok history) as (_ & _ & _ & Hsub). fold s in Hsub.
    intros Hin.
    assert (p ∈ map fst (Service.invoked (Service.effects s))) as Hin'
      by (apply Hsub, elem_of_app; by left).
    rewrite Hs' in Hcb. apply (f_equal (fun m => m !! "exportWav")) in Hcb.
    rewrite !lookup_singleton_eq in Hcb. injection Hcb as ->.
    rewrite <- app_assoc in Hnd'. apply NoDup_app in Hnd' as (_ & _ & Hnd').
    cbn in Hnd'. by apply NoDup_cons in Hnd' as [Hnd' _].
Qed.

Lemma stop_before_start_never_resolves_witness :
  0%nat ∉ Service.resolved
            (Service.effects
               (foldl Service.step
                  (snd (Service.onmessage (export_reply (wav_blob (of_Z 0) []))
                          (Service.after [Service.Stop])))
                  [Service.Start (of_Z 8000); Service.Closed])).
Proof.
  refine (proj2 (proj2 (stop_before_start_never_resolves [Service.Stop]
                          [Service.Start (of_Z 8000); Service.Closed]
                          (wav_blob (of_Z 0) []) [] 0%nat _ eq_refl))).
  repeat constructor; discriminate.
Defined.
